(** * Round-Gif-Python: rounded corners for animated GIFs

    A shallow embedding of [index.py] and the properties of its three
    functions: [mask_rounded_corners], [transparent_indexed_gif_frame]
    and [create_rounded_corners_gif].

    The script is written against the Pillow imaging library.  Rasters
    are modelled as row-major pixel lists; the per-pixel primitives
    ([Image.new], [getchannel], [Image.eval], [putalpha], [paste],
    [copy], mode conversions that do not quantize) are written out.
    Three library algorithms are taken as parameters of the
    development: the rasterizer behind [ImageDraw.rounded_rectangle],
    the [GaussianBlur] filter and the adaptive colour quantizer.  Each
    theorem states the part of their contract it relies on.  Two
    decisions of the GIF writer are parameters as well: whether [save]
    takes the output path, and which frames it finds identical to the
    frame before and merges.  Calls that raise are modelled as such:
    the drawing call for a negative radius, [Image.open], a frame that
    fails to load, [putalpha] and [paste] on a size mismatch, [save]. *)

From Stdlib Require Import ZArith Lia.
From stdpp Require Import base numbers option list strings gmap.

(** ** Exceptions and results *)

Inductive exn :=
| ValueError (msg : string)
| OSError (msg : string)
| KeyError (msg : string)
| FileNotFoundError (path : string)
| UnidentifiedImageError (path : string).

(** A call either raises or returns. *)
Definition result (A : Type) : Type := exn + A.

Definition raise {A} (e : exn) : result A := inl e.

#[global] Instance result_ret : MRet result := λ A x, inr x.
#[global] Instance result_bind : MBind result :=
  λ A B f m, match m with inl e => inl e | inr x => f x end.

(** ** Rasters *)

Definition rgb : Type := Z * Z * Z.
Definition rgba : Type := Z * Z * Z * Z.

(** An image of one mode: [im_size] is Pillow's [size = (width, height)],
    [im_data] the pixels row by row, [im_palette] the colour table of a
    "P" image and [im_info] the [info] dictionary. *)
Record Image (A : Type) := mkImage {
  im_size : nat * nat;
  im_data : list A;
  im_palette : list rgb;
  im_info : gmap string Z }.
Arguments mkImage {A} _ _ _ _.
Arguments im_size {A} _.
Arguments im_data {A} _.
Arguments im_palette {A} _.
Arguments im_info {A} _.

Definition width {A} (im : Image A) : nat := (im_size im).1.
Definition height {A} (im : Image A) : nat := (im_size im).2.

(** Every image Pillow hands out has exactly [width * height] pixels. *)
Definition wf {A} (im : Image A) : Prop :=
  length (im_data im) = width im * height im.

(** [im.getpixel((x, y))]; [None] stands for the [IndexError] outside
    the image. *)
Definition getpixel {A} (im : Image A) (x y : nat) : option A :=
  if decide (x < width im ∧ y < height im)
  then im_data im !! (y * width im + x)
  else None.

Definition with_data {A B} (im : Image A) (d : list B) : Image B :=
  mkImage (im_size im) d (im_palette im) (im_info im).

(** A frame as the decoder hands it out, in any of the modes GIF frames
    come in. *)
Inductive frame :=
| ModeL (im : Image Z)
| ModeP (im : Image Z)
| ModeRGB (im : Image rgb)
| ModeRGBA (im : Image rgba).

Definition frame_size (f : frame) : nat * nat :=
  match f with
  | ModeL im | ModeP im => im_size im
  | ModeRGB im => im_size im
  | ModeRGBA im => im_size im
  end.

Definition frame_wf (f : frame) : Prop :=
  match f with
  | ModeL im | ModeP im => wf im
  | ModeRGB im => wf im
  | ModeRGBA im => wf im
  end.

(** *** Pixel accessors *)

Definition color_of (p : rgba) : rgb := let '(r, g, b, _) := p in (r, g, b).
Definition alpha_of (p : rgba) : Z := let '(_, _, _, a) := p in a.
Definition set_alpha (p : rgba) (a : Z) : rgba :=
  let '(r, g, b, _) := p in (r, g, b, a).

(** *** Library primitives that work pixel by pixel *)

(** [Image.new("L", size, color)] *)
Definition Image_new (size : nat * nat) (color : Z) : Image Z :=
  mkImage size (replicate (size.1 * size.2) color) [] ∅.

(** [im.copy()] *)
Definition copy {A} (im : Image A) : Image A := im.

(** [im.getchannel('A')] of an "RGBA" image *)
Definition getchannel_A (im : Image rgba) : Image Z :=
  with_data im (alpha_of <$> im_data im).

(** [Image.eval(im, f)]: [f] applied to each pixel value *)
Definition Image_eval (im : Image Z) (f : Z → Z) : Image Z :=
  with_data im (f <$> im_data im).

(** [im.convert("RGB")] of an "RGBA" image drops the alpha band. *)
Definition convert_RGB (im : Image rgba) : Image rgb :=
  with_data im (color_of <$> im_data im).

(** Colour and alpha of palette entry [i] of a "P" image: the entry at
    [info["transparency"]] is fully transparent, every other opaque. *)
Definition palette_rgba (im : Image Z) (i : Z) : rgba :=
  let '(r, g, b) := default (0, 0, 0)%Z (im_palette im !! Z.to_nat i) in
  (r, g, b, if decide (im_info im !! "transparency" = Some i) then 0 else 255)%Z.

(** [im.convert("RGBA")]: a copy for "RGBA", an opaque alpha band added
    to "RGB" and "L", the palette looked up for "P". *)
Definition convert_RGBA (f : frame) : Image rgba :=
  match f with
  | ModeRGBA im => copy im
  | ModeRGB im => with_data im ((λ '(r, g, b), (r, g, b, 255%Z)) <$> im_data im)
  | ModeL im => with_data im ((λ l, (l, l, l, 255%Z)) <$> im_data im)
  | ModeP im => with_data im (palette_rgba im <$> im_data im)
  end.

(** [im.putalpha(alpha)] with an "L" image: the band is replaced; sizes
    that differ raise [ValueError]. *)
Definition putalpha (im : Image rgba) (alpha : Image Z) : result (Image rgba) :=
  if decide (im_size alpha = im_size im)
  then mret (with_data im (zip_with set_alpha (im_data im) (im_data alpha)))
  else raise (ValueError "images do not match").

(** Mixing of one 8-bit value under an 8-bit mask: the pasted value
    where the mask is 255, the old one where it is 0, a rounded linear
    mix in between. *)
Definition blend (mask old new : Z) : Z :=
  ((old * (255 - mask) + new * mask + 127) / 255)%Z.

(** [im.paste(color, mask)] with an "L" mask over the whole image;
    sizes that differ raise [ValueError]. *)
Definition paste (color : Z) (mask : Image Z) (im : Image Z) : result (Image Z) :=
  if decide (im_size mask = im_size im)
  then mret (with_data im (zip_with (λ m old, blend m old color) (im_data mask) (im_data im)))
  else raise (ValueError "images do not match").

(** The function of line 43, [lambda a: 255 if a <= 128 else 0]. *)
Definition alpha_threshold (a : Z) : Z := if (a <=? 128)%Z then 255%Z else 0%Z.

(** [im.info[key] = value] *)
Definition set_info {A} (key : string) (value : Z) (im : Image A) : Image A :=
  mkImage (im_size im) (im_data im) (im_palette im) (<[key := value]> (im_info im)).

(** ** Contracts of the library algorithms *)

(** The blur filter returns an image of the size of its argument. *)
Definition blur_keeps_size (blur : Z → Image Z → Image Z) : Prop :=
  ∀ r m, im_size (blur r m) = im_size m.

Definition blur_keeps_wf (blur : Z → Image Z → Image Z) : Prop :=
  ∀ r m, wf m → wf (blur r m).

(** The quantizer returns an image of the size of its argument, pixel
    for pixel, and with [colors=n] uses the palette indices [0..n-1]. *)
Definition quantize_keeps_size (q : Z → Image rgb → Image Z) : Prop :=
  ∀ n im, im_size (q n im) = im_size im.

Definition quantize_keeps_length (q : Z → Image rgb → Image Z) : Prop :=
  ∀ n im, length (im_data (q n im)) = length (im_data im).

Definition quantize_in_range (q : Z → Image rgb → Image Z) : Prop :=
  ∀ n im v, (0 < n)%Z → v ∈ im_data (q n im) → (0 ≤ v < n)%Z.

(** A rounded rectangle over the box [(x0, y0, x1, y1)] is the inner
    rectangle [x0+r..x1-r] by [y0+r..y1-r] grown by the radius [r].
    [nearest] is the point of an interval closest to a coordinate and
    [dist2_inner] the squared distance of a pixel to the inner
    rectangle. *)
Definition nearest (lo hi x : Z) : Z := Z.max lo (Z.min x hi).

Definition dist2_inner (xy : Z * Z * Z * Z) (r x y : Z) : Z :=
  let '(x0, y0, x1, y1) := xy in
  let cx := nearest (x0 + r) (x1 - r) x in
  let cy := nearest (y0 + r) (y1 - r) y in
  ((x - cx) * (x - cx) + (y - cy) * (y - cy))%Z.

Definition radius_fits (xy : Z * Z * Z * Z) (r : Z) : Prop :=
  let '(x0, y0, x1, y1) := xy in
  (0 ≤ r ∧ 2 * r ≤ x1 - x0 ∧ 2 * r ≤ y1 - y0)%Z.

(** The rasterizer paints the inner rectangle ... *)
Definition fills_inner (fill : Z * Z * Z * Z → Z → Z → Z → bool) : Prop :=
  ∀ xy r x y, radius_fits xy r → dist2_inner xy r x y = 0%Z → fill xy r x y = true.

(** ... and nothing farther than [r + 1/2] from it. *)
Definition fills_within (fill : Z * Z * Z * Z → Z → Z → Z → bool) : Prop :=
  ∀ xy r x y, radius_fits xy r → fill xy r x y = true →
    (dist2_inner xy r x y ≤ r * r + r)%Z.

(** ** Reference instances of the library algorithms *)

(** The rounded rectangle of plane geometry, the radius clamped to half
    the shorter side. *)
Definition ideal_rounded_rectangle (xy : Z * Z * Z * Z) (radius x y : Z) : bool :=
  let '(x0, y0, x1, y1) := xy in
  let r := Z.max 0 (Z.min radius (Z.min ((x1 - x0) / 2) ((y1 - y0) / 2))) in
  bool_decide (dist2_inner xy r x y ≤ r * r)%Z.

(** The same shape with every pixel up to [r + 1/2] from the inner
    rectangle painted, the most a rasterizer that rounds to the nearest
    pixel paints. *)
Definition grown_rounded_rectangle (xy : Z * Z * Z * Z) (radius x y : Z) : bool :=
  let '(x0, y0, x1, y1) := xy in
  let r := Z.max 0 (Z.min radius (Z.min ((x1 - x0) / 2) ((y1 - y0) / 2))) in
  bool_decide (dist2_inner xy r x y ≤ r * r + r)%Z.

(** The mean over the window of side [2 * radius + 1] around each pixel,
    the border pixels repeated outside the image. *)
Definition window_sum (m : Image Z) (k : nat) (x y : nat) : Z :=
  foldr Z.add 0%Z
    (dy ← seq 0 (2 * k + 1);
     dx ← seq 0 (2 * k + 1);
     let cx := (Nat.min (x + dx - k) (width m - 1)) in
     let cy := (Nat.min (y + dy - k) (height m - 1)) in
     [default 0%Z (im_data m !! (cy * width m + cx))]).

Definition mean_filter (radius : Z) (m : Image Z) : Image Z :=
  let k := Z.to_nat radius in
  with_data m
    (imap (λ i _,
       (window_sum m k (i `mod` width m) (i `div` width m)
        / Z.of_nat ((2 * k + 1) * (2 * k + 1)))%Z) (im_data m)).

(** The text of a path from its last dot (character 46) on, empty when
    it has none. *)
Fixpoint extension (fp : string) : string :=
  match fp with
  | EmptyString => EmptyString
  | String c rest =>
      match extension rest with
      | EmptyString => if Ascii.eqb c (Ascii.ascii_of_nat 46) then fp else EmptyString
      | ext => ext
      end
  end.

(** A writer that takes paths ending in ".gif" and no other. *)
Definition gif_extension_only (fp : string) : option exn :=
  if decide (extension fp = ".gif") then None
  else Some (ValueError ("unknown file extension: " +:+ extension fp)).

(** Two frames are the same picture when size, palette and indices
    agree. *)
Definition same_raster (p1 p2 : Image Z) : bool :=
  bool_decide (im_size p1 = im_size p2 ∧ im_palette p1 = im_palette p2 ∧
               im_data p1 = im_data p2).

(** A quantizer that keeps the first [colors] distinct colours of the
    image as its palette and sends every other colour to entry 0. *)
Definition first_colors (colors : Z) (im : Image rgb) : Image Z :=
  let pal := take (Z.to_nat colors) (remove_dups (im_data im)) in
  mkImage (im_size im)
    ((λ c, match list_find (λ p, p = c) pal with
           | Some (i, _) => Z.of_nat i
           | None => 0%Z
           end) <$> im_data im)
    pal (im_info im).

(** ** The two frame transformations *)

Section Pipeline.

(** [rounded_rectangle_fill xy radius x y]: whether
    [ImageDraw.rounded_rectangle(xy, radius, fill)] paints pixel [(x, y)]. *)
Variable rounded_rectangle_fill : Z * Z * Z * Z → Z → Z → Z → bool.

(** [mask.filter(ImageFilter.GaussianBlur(radius))] *)
Variable GaussianBlur : Z → Image Z → Image Z.

(** [im.convert('P', palette=Image.ADAPTIVE, colors=n)] of an "RGB" image *)
Variable quantize : Z → Image rgb → Image Z.

(** Why [save] cannot write to a path, if it cannot: an extension no
    format is registered for, a directory that does not exist. *)
Variable save_refused : string → option exn.

(** The GIF writer's test that a frame is identical to the frame
    written before it. *)
Variable same_picture : Image Z → Image Z → bool.

(** The pixels [rounded_rectangle] paints: those the shape covers take
    the fill value, the others keep theirs. *)
Definition paint_rounded_rectangle
    (xy : Z * Z * Z * Z) (radius fill : Z) (mask : Image Z) : Image Z :=
  with_data mask
    (imap (λ i v,
       if rounded_rectangle_fill xy radius
            (Z.of_nat (i `mod` width mask)) (Z.of_nat (i `div` width mask))
       then fill else v) (im_data mask)).

(** [ImageDraw.Draw(mask).rounded_rectangle(xy, radius=radius, fill=fill)]:
    a negative radius gives the corner pieces a box whose right edge is
    left of its left edge, which raises [ValueError]. *)
Definition draw_rounded_rectangle
    (xy : Z * Z * Z * Z) (radius fill : Z) (mask : Image Z) : result (Image Z) :=
  if (radius <? 0)%Z
  then raise (ValueError "x1 must be greater than or equal to x0")
  else mret (paint_rounded_rectangle xy radius fill mask).

(** The mask of lines 14-23 once the drawing call has gone through:
    black, the rounded rectangle painted in white, blurred when
    [blur_radius > 0]. *)
Definition painted_mask (size : nat * nat) (corner_radius blur_radius : Z) : Image Z :=
  let '(w, h) := size in
  let mask := Image_new (w, h) 0 in
  let mask := paint_rounded_rectangle (0, 0, Z.of_nat w, Z.of_nat h)%Z corner_radius 255 mask in
  if (0 <? blur_radius)%Z then GaussianBlur blur_radius mask else mask.

(** Lines 14-23. *)
Definition rounded_mask (size : nat * nat) (corner_radius blur_radius : Z)
    : result (Image Z) :=
  let '(w, h) := size in
  let mask := Image_new (w, h) 0 in
  mask ← draw_rounded_rectangle (0, 0, Z.of_nat w, Z.of_nat h)%Z corner_radius 255 mask;
  mret (if (0 <? blur_radius)%Z then GaussianBlur blur_radius mask else mask).

Definition mask_rounded_corners
    (pil_img : frame) (corner_radius blur_radius : Z) : result (Image rgba) :=
  let pil_img := convert_RGBA pil_img in
  mask ← rounded_mask (im_size pil_img) corner_radius blur_radius;
  let result := copy pil_img in
  putalpha result mask.

Definition transparent_indexed_gif_frame (rgba_frame : Image rgba) : result (Image Z) :=
  let alpha := getchannel_A rgba_frame in
  let pal_frame := quantize 255 (convert_RGB rgba_frame) in
  let mask := Image_eval alpha alpha_threshold in
  pal_frame ← paste 255 mask pal_frame;
  mret (set_info "transparency" 255 pal_frame).

(** Lines 64-70, the body of the loop of [create_rounded_corners_gif]. *)
Definition process_frame (f : frame) (corner_radius blur_radius : Z) : result (Image Z) :=
  let rgba_frame := convert_RGBA f in
  rounded ← mask_rounded_corners (ModeRGBA rgba_frame) corner_radius blur_radius;
  transparent_indexed_gif_frame rounded.

(** ** Image objects

    Pillow images are mutable objects: [putalpha] and the drawing calls
    update their target in place, the other calls allocate.  This is
    [mask_rounded_corners] over a store of image objects, with every
    allocation and every update of the source kept. *)

Definition loc := nat.

Definition ST (A : Type) : Type := gmap loc frame → result A * gmap loc frame.

#[global] Instance ST_ret : MRet ST := λ A x σ, (inr x, σ).
#[global] Instance ST_bind : MBind ST :=
  λ A B f m σ, match m σ with
               | (inl e, σ') => (inl e, σ')
               | (inr x, σ') => f x σ'
               end.

Definition st_raise {A} (e : exn) : ST A := λ σ, (inl e, σ).

Definition st_alloc (o : frame) : ST loc :=
  λ σ, let l := fresh (dom σ) in (inr l, <[l := o]> σ).

Definition st_load (l : loc) : ST frame :=
  λ σ, match σ !! l with
       | Some o => (inr o, σ)
       | None => (inl (KeyError "no such object"), σ)
       end.

Definition st_store (l : loc) (o : frame) : ST unit :=
  λ σ, (inr (), <[l := o]> σ).

Definition st_lift {A} (r : result A) : ST A := λ σ, (r, σ).

(** [img.convert("RGBA")] returns a new image. *)
Definition obj_convert_RGBA (l : loc) : ST loc :=
  o ← st_load l; st_alloc (ModeRGBA (convert_RGBA o)).

Definition obj_size (l : loc) : ST (nat * nat) :=
  o ← st_load l; mret (frame_size o).

Definition obj_new_L (size : nat * nat) (color : Z) : ST loc :=
  st_alloc (ModeL (Image_new size color)).

(** [ImageDraw.Draw(mask).rounded_rectangle(...)] paints into [mask],
    or raises and leaves it as it was. *)
Definition obj_rounded_rectangle (l : loc) (xy : Z * Z * Z * Z) (radius fill : Z) : ST unit :=
  o ← st_load l;
  match o with
  | ModeL m => m' ← st_lift (draw_rounded_rectangle xy radius fill m); st_store l (ModeL m')
  | _ => st_raise (ValueError "unsupported mode")
  end.

(** [mask.filter(...)] returns a new image. *)
Definition obj_filter_GaussianBlur (l : loc) (radius : Z) : ST loc :=
  o ← st_load l;
  match o with
  | ModeL m => st_alloc (ModeL (GaussianBlur radius m))
  | _ => st_raise (ValueError "unsupported mode")
  end.

Definition obj_copy (l : loc) : ST loc :=
  o ← st_load l; st_alloc o.

(** [result.putalpha(mask)] replaces the band of [result] itself. *)
Definition obj_putalpha (l lmask : loc) : ST unit :=
  o ← st_load l;
  m ← st_load lmask;
  match o, m with
  | ModeRGBA im, ModeL alpha => im' ← st_lift (putalpha im alpha); st_store l (ModeRGBA im')
  | _, _ => st_raise (ValueError "illegal image mode")
  end.

Definition mask_rounded_corners_obj
    (pil_img : loc) (corner_radius blur_radius : Z) : ST loc :=
  pil_img ← obj_convert_RGBA pil_img;
  '(w, h) ← obj_size pil_img;
  mask ← obj_new_L (w, h) 0;
  obj_rounded_rectangle mask (0, 0, Z.of_nat w, Z.of_nat h)%Z corner_radius 255;;
  mask ← (if (0 <? blur_radius)%Z
          then obj_filter_GaussianBlur mask blur_radius
          else mret mask);
  result ← obj_copy pil_img;
  obj_putalpha result mask;;
  mret result.

(** [transparent_indexed_gif_frame] over the same store.  Only an
    "RGBA" image has the band [getchannel('A')] asks for; [convert],
    [getchannel] and [Image.eval] allocate, [paste] and the assignment to
    [info] update [pal_frame] in place. *)

Definition obj_getchannel_A (l : loc) : ST loc :=
  o ← st_load l;
  match o with
  | ModeRGBA im => st_alloc (ModeL (getchannel_A im))
  | _ => st_raise (ValueError "The image has no channel A")
  end.

Definition obj_convert_RGB (l : loc) : ST loc :=
  o ← st_load l;
  match o with
  | ModeRGBA im => st_alloc (ModeRGB (convert_RGB im))
  | ModeRGB im => st_alloc (ModeRGB (copy im))
  | _ => st_raise (ValueError "unsupported mode")
  end.

Definition obj_convert_P (l : loc) (colors : Z) : ST loc :=
  o ← st_load l;
  match o with
  | ModeRGB im => st_alloc (ModeP (quantize colors im))
  | _ => st_raise (ValueError "unsupported mode")
  end.

Definition obj_Image_eval (l : loc) (f : Z → Z) : ST loc :=
  o ← st_load l;
  match o with
  | ModeL m => st_alloc (ModeL (Image_eval m f))
  | _ => st_raise (ValueError "unsupported mode")
  end.

Definition obj_paste (l : loc) (color : Z) (lmask : loc) : ST unit :=
  o ← st_load l;
  m ← st_load lmask;
  match o, m with
  | ModeP im, ModeL mask => im' ← st_lift (paste color mask im); st_store l (ModeP im')
  | _, _ => st_raise (ValueError "unsupported mode")
  end.

Definition frame_set_info (key : string) (value : Z) (f : frame) : frame :=
  match f with
  | ModeL im => ModeL (set_info key value im)
  | ModeP im => ModeP (set_info key value im)
  | ModeRGB im => ModeRGB (set_info key value im)
  | ModeRGBA im => ModeRGBA (set_info key value im)
  end.

Definition obj_set_info (l : loc) (key : string) (value : Z) : ST unit :=
  o ← st_load l; st_store l (frame_set_info key value o).

Definition transparent_indexed_gif_frame_obj (rgba_frame : loc) : ST loc :=
  alpha ← obj_getchannel_A rgba_frame;
  rgb ← obj_convert_RGB rgba_frame;
  pal_frame ← obj_convert_P rgb 255;
  mask ← obj_Image_eval alpha alpha_threshold;
  obj_paste pal_frame 255 mask;;
  obj_set_info pal_frame "transparency" 255;;
  mret pal_frame.

(** ** The orchestrator

    The outside world of [create_rounded_corners_gif] is the file system
    and the console.  A file is taken at the level the script sees it
    through [Image.open]: either Pillow cannot identify it, or it is an
    image whose frames [ImageSequence.Iterator] walks through, each one
    decoding to a frame or raising while it is loaded.  An image that
    opens has a first frame: a file without one is not identified. *)

Inductive frame_read :=
| Decoded (f : frame)
| Failing (e : exn).

Record animation := mkAnimation {
  an_frames : list frame_read;
  an_loop : option Z;
  an_disposal : option Z;
  an_optimize : bool }.

Inductive file :=
| Unidentified
| Animated (a : animation).

Record world := mkWorld {
  fs : gmap string file;
  stdout : list string }.

Definition IO (A : Type) : Type := world → result A * world.

#[global] Instance IO_ret : MRet IO := λ A x w, (inr x, w).
#[global] Instance IO_bind : MBind IO :=
  λ A B f m w, match m w with
               | (inl e, w') => (inl e, w')
               | (inr x, w') => f x w'
               end.

Definition io_lift {A} (r : result A) : IO A := λ w, (r, w).

(** [Image.open(path)]: the frames the iterator will walk through, at
    least one. *)
Definition Image_open (path : string) : IO (list frame_read) :=
  λ w, match fs w !! path with
       | None => (raise (FileNotFoundError path), w)
       | Some Unidentified => (raise (UnidentifiedImageError path), w)
       | Some (Animated a) =>
           match an_frames a with
           | [] => (raise (UnidentifiedImageError path), w)
           | reads => (mret reads, w)
           end
       end.

(** The frames the GIF writer keeps after [previous]: a frame identical
    to the last one written is merged into it. *)
Fixpoint merge_repeats (previous : Image Z) (frames : list (Image Z)) : list (Image Z) :=
  match frames with
  | [] => []
  | frame :: rest =>
      if same_picture previous frame
      then merge_repeats previous rest
      else frame :: merge_repeats frame rest
  end.

(** [first.save(fp, save_all=True, append_images=..., loop=..., disposal=...,
    optimize=...)]: raises with nothing written when the path is refused,
    writes the frames the writer keeps otherwise. *)
Definition save (first : Image Z) (fp : string) (append_images : list (Image Z))
    (loop disposal : Z) (optimize : bool) : IO unit :=
  λ w, match save_refused fp with
       | Some e => (raise e, w)
       | None =>
           (mret (),
            mkWorld
              (<[fp := Animated
                         (mkAnimation
                            ((λ p, Decoded (ModeP p)) <$>
                               first :: merge_repeats first append_images)
                            (Some loop) (Some disposal) optimize)]> (fs w))
              (stdout w))
       end.

Definition print (line : string) : IO unit :=
  λ w, (mret (), mkWorld (fs w) (stdout w ++ [line])).

(** The [for] loop of lines 62-71, [frames] being the list built so far. *)
Fixpoint collect_frames (orig_gif : list frame_read) (corner_radius blur_radius : Z)
    (frames : list (Image Z)) : result (list (Image Z)) :=
  match orig_gif with
  | [] => mret frames
  | Failing e :: _ => raise e
  | Decoded frame :: rest =>
      pal_frame ← process_frame frame corner_radius blur_radius;
      collect_frames rest corner_radius blur_radius (frames ++ [pal_frame])
  end.

(** Lines 58-71: the [with] block. *)
Definition read_frames (input_gif : string) (corner_radius blur_radius : Z)
    : IO (list (Image Z)) :=
  orig_gif ← Image_open input_gif;
  io_lift (collect_frames orig_gif corner_radius blur_radius []).

(** Lines 73-86: what is done with the frames collected. *)
Definition write_frames (frames : list (Image Z)) (input_gif output_gif : string)
    : IO unit :=
  match frames with
  | first :: rest =>
      save first output_gif rest 0 2 false;;
      print ("Saved rounded-corner GIF to: " +:+ output_gif)
  | [] =>
      print ("No frames found in " +:+ input_gif)
  end.

Definition create_rounded_corners_gif
    (input_gif output_gif : string) (corner_radius blur_radius : Z) : IO unit :=
  frames ← read_frames input_gif corner_radius blur_radius;
  write_frames frames input_gif output_gif.

(** Lines 62-86 for an image that is open: the loop over the frames
    the iterator yields, then the frames written. *)
Definition round_opened (orig_gif : list frame_read)
    (input_gif output_gif : string) (corner_radius blur_radius : Z) : IO unit :=
  frames ← io_lift (collect_frames orig_gif corner_radius blur_radius []);
  write_frames frames input_gif output_gif.

(** Lines 90-101, the script run directly. *)
Definition main : IO unit :=
  let input_path := "Templates_Accessing_Templates.gif" in
  let output_path := "Templates_Accessing_Templates_Rounded.gif" in
  let corner_radius := 50%Z in
  let blur_radius := 0%Z in
  create_rounded_corners_gif input_path output_path corner_radius blur_radius.

End Pipeline.

(** ** Closed forms *)

(** The frame [transparent_indexed_gif_frame] returns, from the alpha
    band of its argument and the quantized frame. *)
Definition pasted (alphas : list Z) (pal_frame : Image Z) : Image Z :=
  set_info "transparency" 255
    (with_data pal_frame
       (zip_with (λ m old, blend m old 255) (alpha_threshold <$> alphas)
          (im_data pal_frame))).

(** The file [save] leaves behind: the frames the writer kept, in mode
    "P", looping forever, disposal 2, not optimized. *)
Definition saved_animation (frames : list (Image Z)) : file :=
  Animated (mkAnimation ((λ p, Decoded (ModeP p)) <$> frames)
              (Some 0%Z) (Some 2%Z) false).

(** The frames the writer keeps of a list: the first, and every later
    one that is not identical to the one kept before it. *)
Definition kept_frames (same : Image Z → Image Z → bool) (frames : list (Image Z))
    : list (Image Z) :=
  match frames with
  | [] => []
  | first :: rest => first :: merge_repeats same first rest
  end.

(** ** Sample inputs *)

(** A fully opaque "RGBA" frame of one colour. *)
Definition opaque_frame (w h : nat) : frame :=
  ModeRGBA (mkImage (w, h) (replicate (w * h) (200, 120, 40, 255)%Z) [] ∅).

Definition tinted_frame (w h : nat) (red : Z) : frame :=
  ModeRGBA (mkImage (w, h) (replicate (w * h) (red, 120, 40, 255)%Z) [] ∅).

(** Two pixels on either side of the alpha threshold. *)
Definition threshold_pixels : Image rgba :=
  mkImage (2, 1) [(200, 120, 40, 128); (200, 120, 40, 129)]%Z [] ∅.

(** The same colours with other alphas. *)
Definition faded_pixels : Image rgba :=
  mkImage (2, 1) [(200, 120, 40, 255); (200, 120, 40, 0)]%Z [] ∅.

Definition animation_of (reads : list frame_read) : file :=
  Animated (mkAnimation reads None None false).

(** A three-frame animation of 100 by 100 pixels, each frame of
    another colour. *)
Definition three_tints : list frame :=
  [tinted_frame 100 100 200; tinted_frame 100 100 100; tinted_frame 100 100 0].

Definition three_frames : world :=
  mkWorld {[ "in.gif" := animation_of (Decoded <$> three_tints) ]} [].

(** An animation that shows the same small frame three times. *)
Definition still_frames : world :=
  mkWorld {[ "in.gif" := animation_of (Decoded <$> replicate 3 (opaque_frame 8 8)) ]} [].

(** An animation whose second frame cannot be decoded. *)
Definition truncated_gif : world :=
  mkWorld
    {[ "in.gif" :=
         animation_of [Decoded (opaque_frame 4 4);
                       Failing (OSError "image file is truncated")] ]} [].

(** The two stages with the reference instances of the library
    algorithms. *)
Abbreviation ref_mask :=
  (mask_rounded_corners ideal_rounded_rectangle mean_filter) (only parsing).
Abbreviation ref_quantized :=
  (transparent_indexed_gif_frame first_colors) (only parsing).

(** ** Where the rounded rectangle lies *)

Section Geometry.

Variable fill : Z * Z * Z * Z → Z → Z → Z → bool.
Variables (w h : nat) (r : Z).
Hypothesis Hfit : (0 ≤ r ∧ 2 * r ≤ Z.of_nat (w `min` h))%Z.

Let box : Z * Z * Z * Z := (0, 0, Z.of_nat w, Z.of_nat h)%Z.

Lemma box_radius_fits : radius_fits box r.
Proof using Hfit. unfold radius_fits, box. lia. Qed.

(** The centre pixel lies in the inner rectangle. *)
Lemma center_painted :
  fills_inner fill →
  fill box r (Z.of_nat (w `div` 2)) (Z.of_nat (h `div` 2)) = true.
Proof using Hfit.
  intros Hin. apply Hin; [apply box_radius_fits|].
  unfold dist2_inner, box, nearest.
  assert (Z.of_nat (w `div` 2) = Z.of_nat w `div` 2)%Z as -> by apply Nat2Z.inj_div.
  assert (Z.of_nat (h `div` 2) = Z.of_nat h `div` 2)%Z as -> by apply Nat2Z.inj_div.
  replace (Z.max (0 + r) (Z.min (Z.of_nat w `div` 2) (Z.of_nat w - r)))
    with (Z.of_nat w `div` 2)%Z by (Z.div_mod_to_equations; lia).
  replace (Z.max (0 + r) (Z.min (Z.of_nat h `div` 2) (Z.of_nat h - r)))
    with (Z.of_nat h `div` 2)%Z by (Z.div_mod_to_equations; lia).
  lia.
Qed.

(** With radius 0 the inner rectangle is the whole box. *)
Lemma square_corners_painted (x y : nat) :
  fills_inner fill → r = 0%Z → x ≤ w → y ≤ h →
  fill box r (Z.of_nat x) (Z.of_nat y) = true.
Proof using Hfit.
  intros Hin Hr Hx Hy. apply Hin; [apply box_radius_fits|].
  unfold dist2_inner, box, nearest.
  replace (Z.max (0 + r) (Z.min (Z.of_nat x) (Z.of_nat w - r))) with (Z.of_nat x) by lia.
  replace (Z.max (0 + r) (Z.min (Z.of_nat y) (Z.of_nat h - r))) with (Z.of_nat y) by lia.
  lia.
Qed.

(** The four corner pixels of the image lie farther than [r + 1/2] from
    the inner rectangle once the radius is 5 or more.  The box reaches
    one pixel beyond the image on the right and at the bottom, so the
    right and bottom corner pixels sit one step inside its corners. *)
Lemma corner_not_painted (x y : nat) :
  fills_within fill → (5 ≤ r)%Z →
  (x = 0 ∨ x = w - 1) → (y = 0 ∨ y = h - 1) →
  fill box r (Z.of_nat x) (Z.of_nat y) = false.
Proof using Hfit.
  intros Hout Hr Hx Hy. apply not_true_is_false. intros Hpaint.
  apply Hout in Hpaint; [|apply box_radius_fits].
  unfold dist2_inner, box, nearest in Hpaint.
  destruct Hx as [-> | ->], Hy as [-> | ->].
  - replace (Z.max (0 + r) (Z.min (Z.of_nat 0) (Z.of_nat w - r))) with r in Hpaint by lia.
    replace (Z.max (0 + r) (Z.min (Z.of_nat 0) (Z.of_nat h - r))) with r in Hpaint by lia.
    nia.
  - replace (Z.max (0 + r) (Z.min (Z.of_nat 0) (Z.of_nat w - r))) with r in Hpaint by lia.
    replace (Z.max (0 + r) (Z.min (Z.of_nat (h - 1)) (Z.of_nat h - r)))
      with (Z.of_nat h - r)%Z in Hpaint by lia.
    replace (Z.of_nat (h - 1)) with (Z.of_nat h - 1)%Z in Hpaint by lia.
    nia.
  - replace (Z.max (0 + r) (Z.min (Z.of_nat (w - 1)) (Z.of_nat w - r)))
      with (Z.of_nat w - r)%Z in Hpaint by lia.
    replace (Z.max (0 + r) (Z.min (Z.of_nat 0) (Z.of_nat h - r))) with r in Hpaint by lia.
    replace (Z.of_nat (w - 1)) with (Z.of_nat w - 1)%Z in Hpaint by lia.
    nia.
  - replace (Z.max (0 + r) (Z.min (Z.of_nat (w - 1)) (Z.of_nat w - r)))
      with (Z.of_nat w - r)%Z in Hpaint by lia.
    replace (Z.max (0 + r) (Z.min (Z.of_nat (h - 1)) (Z.of_nat h - r)))
      with (Z.of_nat h - r)%Z in Hpaint by lia.
    replace (Z.of_nat (w - 1)) with (Z.of_nat w - 1)%Z in Hpaint by lia.
    replace (Z.of_nat (h - 1)) with (Z.of_nat h - 1)%Z in Hpaint by lia.
    nia.
Qed.

End Geometry.

(** ** Properties of the frame transformations *)

Section Properties.

Variable fill : Z * Z * Z * Z → Z → Z → Z → bool.
Variable blur : Z → Image Z → Image Z.
Variable q : Z → Image rgb → Image Z.
Variable refused : string → option exn.
Variable same : Image Z → Image Z → bool.

Lemma convert_RGBA_size (f : frame) : im_size (convert_RGBA f) = frame_size f.
Proof. by destruct f. Qed.

Lemma convert_RGBA_wf (f : frame) : frame_wf f → wf (convert_RGBA f).
Proof.
  destruct f as [im|im|im|im]; unfold frame_wf, wf, width, height; simpl;
    rewrite ?length_fmap; done.
Qed.

Lemma blend_opaque_mask (old new : Z) : blend 255 old new = new.
Proof.
  unfold blend. change (255 - 255)%Z with 0%Z. rewrite Z.mul_0_r, Z.add_0_l.
  symmetry. apply (Z.div_unique _ _ _ 127); lia.
Qed.

Lemma blend_clear_mask (old new : Z) : blend 0 old new = old.
Proof.
  unfold blend. rewrite Z.mul_0_r, Z.add_0_r, Z.sub_0_r.
  symmetry. apply (Z.div_unique _ _ _ 127); lia.
Qed.

Lemma painted_mask_size (s : nat * nat) (r b : Z) :
  blur_keeps_size blur → im_size (painted_mask fill blur s r b) = s.
Proof.
  intros Hb. destruct s as [w h]. unfold painted_mask.
  case_match; [rewrite Hb|]; done.
Qed.

Lemma painted_mask_sharp_size (s : nat * nat) (r : Z) :
  im_size (painted_mask fill blur s r 0) = s.
Proof. by destruct s. Qed.

(** The drawing call goes through for a radius of 0 or more and raises
    for a negative one. *)
Lemma rounded_mask_returns (s : nat * nat) (r b : Z) :
  (0 ≤ r)%Z →
  rounded_mask fill blur s r b = inr (painted_mask fill blur s r b).
Proof.
  intros Hr. destruct s as [w h]. unfold rounded_mask, draw_rounded_rectangle.
  by rewrite (proj2 (Z.ltb_ge r 0) Hr).
Qed.

Lemma rounded_mask_raises (s : nat * nat) (r b : Z) :
  (r < 0)%Z →
  rounded_mask fill blur s r b =
    inl (ValueError "x1 must be greater than or equal to x0").
Proof.
  intros Hr. destruct s as [w h]. unfold rounded_mask, draw_rounded_rectangle.
  by rewrite (proj2 (Z.ltb_lt r 0) Hr).
Qed.

Lemma mask_rounded_corners_raises (f : frame) (r b : Z) :
  (r < 0)%Z →
  mask_rounded_corners fill blur f r b =
    inl (ValueError "x1 must be greater than or equal to x0").
Proof.
  intros Hr. unfold mask_rounded_corners. by rewrite rounded_mask_raises.
Qed.

(** What [mask_rounded_corners] returns once the mask is drawn and has
    the size of the frame. *)
Lemma mask_rounded_corners_returns (f : frame) (r b : Z) :
  (0 ≤ r)%Z →
  im_size (painted_mask fill blur (frame_size f) r b) = frame_size f →
  mask_rounded_corners fill blur f r b =
    inr (with_data (convert_RGBA f)
           (zip_with set_alpha (im_data (convert_RGBA f))
              (im_data (painted_mask fill blur (frame_size f) r b)))).
Proof.
  intros Hr Hs. unfold mask_rounded_corners.
  rewrite rounded_mask_returns by done. simpl. unfold putalpha, copy.
  rewrite convert_RGBA_size, decide_True by done. done.
Qed.

(** What [transparent_indexed_gif_frame] returns once the quantized
    frame has the size of the frame. *)
Lemma transparent_indexed_gif_frame_returns (fr : Image rgba) :
  quantize_keeps_size q →
  transparent_indexed_gif_frame q fr =
    inr (set_info "transparency" 255
           (with_data (q 255%Z (convert_RGB fr))
              (zip_with (λ m old, blend m old 255)
                 (alpha_threshold <$> (alpha_of <$> im_data fr))
                 (im_data (q 255%Z (convert_RGB fr)))))).
Proof.
  intros Hq. unfold transparent_indexed_gif_frame, paste.
  rewrite decide_True; [done|]. by rewrite Hq.
Qed.


(** A pixel of the returned frame: the transparent index where the
    alpha is at most 128, the index the quantizer chose elsewhere. *)
Lemma pasted_pixel (fr : Image rgba) (i : nat) (px : rgba) (v : Z) :
  im_data fr !! i = Some px →
  im_data (q 255%Z (convert_RGB fr)) !! i = Some v →
  zip_with (λ m old, blend m old 255)
    (alpha_threshold <$> (alpha_of <$> im_data fr))
    (im_data (q 255%Z (convert_RGB fr))) !! i
  = Some (if (alpha_of px <=? 128)%Z then 255%Z else v).
Proof.
  intros Hpx Hv. rewrite lookup_zip_with, !list_lookup_fmap, Hpx, Hv. simpl.
  unfold alpha_threshold. f_equal.
  case_match; [apply blend_opaque_mask | apply blend_clear_mask].
Qed.

Lemma quantized_lookup (fr : Image rgba) (i : nat) (px : rgba) :
  quantize_keeps_length q → quantize_in_range q →
  im_data fr !! i = Some px →
  ∃ v, im_data (q 255%Z (convert_RGB fr)) !! i = Some v ∧ (0 ≤ v < 255)%Z.
Proof.
  intros Hlen Hrange Hpx.
  destruct (lookup_lt_is_Some_2 (im_data (q 255%Z (convert_RGB fr))) i) as [v Hv].
  { rewrite Hlen. simpl. rewrite length_fmap. by eapply lookup_lt_Some. }
  exists v. split; [done|].
  apply (Hrange 255%Z (convert_RGB fr)); [lia|]. by eapply list_elem_of_lookup_2.
Qed.

Lemma process_frame_returns (f : frame) (r b : Z) :
  (0 ≤ r)%Z → blur_keeps_size blur → quantize_keeps_size q →
  ∃ pal_frame,
    process_frame fill blur q f r b = inr pal_frame ∧
    im_size pal_frame = frame_size f.
Proof.
  intros Hr Hb Hq. unfold process_frame.
  rewrite mask_rounded_corners_returns; [|done|by apply painted_mask_size].
  simpl. rewrite transparent_indexed_gif_frame_returns by done.
  eexists. split; [done|]. simpl. rewrite Hq. simpl. apply convert_RGBA_size.
Qed.

(** C4, as the code has it: for a corner radius of 0 or more and any
    blur radius, each stage, and so the whole per-frame pipeline,
    returns a frame of the width and height of its input. *)
Theorem stages_keep_dimensions (f : frame) (corner_radius blur_radius : Z) :
  (0 ≤ corner_radius)%Z →
  blur_keeps_size blur → quantize_keeps_size q →
  (∃ rounded,
     mask_rounded_corners fill blur f corner_radius blur_radius = inr rounded ∧
     im_size rounded = frame_size f) ∧
  (∀ rgba_frame, ∃ pal_frame,
     transparent_indexed_gif_frame q rgba_frame = inr pal_frame ∧
     im_size pal_frame = im_size rgba_frame) ∧
  (∃ pal_frame,
     process_frame fill blur q f corner_radius blur_radius = inr pal_frame ∧
     im_size pal_frame = frame_size f).
Proof.
  intros Hr Hb Hq. split_and!.
  - eexists. split.
    + apply mask_rounded_corners_returns; [done|by apply painted_mask_size].
    + apply convert_RGBA_size.
  - intros fr. eexists. split.
    + by apply transparent_indexed_gif_frame_returns.
    + simpl. apply Hq.
  - by apply process_frame_returns.
Qed.

(** C2: a pixel of the returned frame is the transparent index 255
    exactly when its source alpha is at most 128; alpha 128 is
    transparent and alpha 129 is opaque. *)
Theorem transparent_iff_alpha_le_128 (rgba_frame : Image rgba) :
  quantize_keeps_size q → quantize_keeps_length q → quantize_in_range q →
  ∃ pal_frame,
    transparent_indexed_gif_frame q rgba_frame = inr pal_frame ∧
    (∀ i px, im_data rgba_frame !! i = Some px →
       ∃ v, im_data pal_frame !! i = Some v ∧
            (v = 255%Z ↔ (alpha_of px ≤ 128)%Z)) ∧
    (∀ i px, im_data rgba_frame !! i = Some px → alpha_of px = 128%Z →
       im_data pal_frame !! i = Some 255%Z) ∧
    (∀ i px, im_data rgba_frame !! i = Some px → alpha_of px = 129%Z →
       ∃ v, im_data pal_frame !! i = Some v ∧ v ≠ 255%Z).
Proof.
  intros Hsize Hlen Hrange.
  rewrite transparent_indexed_gif_frame_returns by done.
  eexists. split; [done|]. simpl.
  assert (∀ i px, im_data rgba_frame !! i = Some px →
    ∃ v, zip_with (λ m old, blend m old 255)
           (alpha_threshold <$> (alpha_of <$> im_data rgba_frame))
           (im_data (q 255%Z (convert_RGB rgba_frame))) !! i = Some v ∧
         (v = 255%Z ↔ (alpha_of px ≤ 128)%Z)) as Hiff.
  { intros i px Hpx.
    destruct (quantized_lookup _ _ _ Hlen Hrange Hpx) as (v & Hv & Hlt).
    rewrite (pasted_pixel _ _ _ _ Hpx Hv). eexists. split; [done|].
    destruct (Z.leb_spec (alpha_of px) 128); lia. }
  split_and!.
  - done.
  - intros i px Hpx Ha. destruct (Hiff i px Hpx) as (v & -> & Hv).
    f_equal. apply Hv. lia.
  - intros i px Hpx Ha. destruct (Hiff i px Hpx) as (v & -> & Hv).
    exists v. split; [done|]. intros Hc. apply Hv in Hc. lia.
Qed.

(** C3: the returned frame records 255, and nothing else, as its
    transparent index; the quantizer, held to 255 colours, assigns only
    the indices 0..254, and these are what visible pixels keep. *)
Theorem index_255_reserved_for_transparency (rgba_frame : Image rgba) :
  quantize_keeps_size q → quantize_keeps_length q → quantize_in_range q →
  ∃ pal_frame,
    transparent_indexed_gif_frame q rgba_frame = inr pal_frame ∧
    im_info pal_frame !! "transparency" = Some 255%Z ∧
    (∀ k, im_info pal_frame !! "transparency" = Some k → k = 255%Z) ∧
    (∀ v, v ∈ im_data (q 255%Z (convert_RGB rgba_frame)) → (0 ≤ v < 255)%Z) ∧
    (∀ i px, im_data rgba_frame !! i = Some px → (128 < alpha_of px)%Z →
       ∃ v, im_data pal_frame !! i = Some v ∧
            im_data (q 255%Z (convert_RGB rgba_frame)) !! i = Some v ∧
            (0 ≤ v < 255)%Z).
Proof.
  intros Hsize Hlen Hrange.
  rewrite transparent_indexed_gif_frame_returns by done.
  eexists. split; [done|]. simpl. split_and!.
  - apply lookup_insert_eq.
  - intros k. rewrite lookup_insert_eq. congruence.
  - intros v Hv. apply (Hrange 255%Z (convert_RGB rgba_frame)); [lia|done].
  - intros i px Hpx Ha.
    destruct (quantized_lookup _ _ _ Hlen Hrange Hpx) as (v & Hv & Hlt).
    rewrite (pasted_pixel _ _ _ _ Hpx Hv). exists v.
    destruct (Z.leb_spec (alpha_of px) 128); [lia|done].
Qed.


(** *** The two stages composed *)

Lemma zip_set_alpha_alphas (d : list rgba) (m : list Z) :
  length m = length d → alpha_of <$> zip_with set_alpha d m = m.
Proof.
  revert m. induction d as [|[[[r g] b] a] d IH]; intros [|x m] Hlen;
    simplify_eq/=; [done|]. f_equal. by apply IH.
Qed.

Lemma zip_set_alpha_colors (d : list rgba) (m : list Z) :
  length m = length d → color_of <$> zip_with set_alpha d m = color_of <$> d.
Proof.
  revert m. induction d as [|[[[r g] b] a] d IH]; intros [|x m] Hlen;
    simplify_eq/=; [done|]. f_equal. by apply IH.
Qed.

Lemma process_frame_composes (f : frame) (r b : Z) :
  process_frame fill blur q f r b =
    mask_rounded_corners fill blur f r b ≫= transparent_indexed_gif_frame q.
Proof. reflexivity. Qed.

(** The pipeline in closed form: the quantized colours of the frame,
    with index 255 pasted where the mask is at most 128. *)
Lemma pipeline_returns (f : frame) (r b : Z) :
  let mask := painted_mask fill blur (frame_size f) r b in
  (0 ≤ r)%Z → frame_wf f → quantize_keeps_size q →
  im_size mask = frame_size f → wf mask →
  mask_rounded_corners fill blur f r b ≫= transparent_indexed_gif_frame q =
    inr (pasted (im_data mask) (q 255%Z (convert_RGB (convert_RGBA f)))).
Proof.
  intros mask Hr Hwf Hq Hsize Hmask.
  rewrite mask_rounded_corners_returns by done. simpl.
  rewrite transparent_indexed_gif_frame_returns by done. simpl.
  assert (length (im_data mask) = length (im_data (convert_RGBA f))) as Hlen.
  { apply convert_RGBA_wf in Hwf. unfold wf, width, height in *.
    rewrite Hmask, Hwf, Hsize, convert_RGBA_size. done. }
  unfold pasted, convert_RGB, with_data. simpl.
  fold mask. by rewrite zip_set_alpha_alphas, zip_set_alpha_colors.
Qed.

Lemma pixel_index (w h x y : nat) :
  x < w → y < h →
  y * w + x < w * h ∧ (y * w + x) `mod` w = x ∧ (y * w + x) `div` w = y.
Proof.
  intros Hx Hy. split_and!.
  - nia.
  - symmetry. apply (Nat.mod_unique _ _ y); lia.
  - symmetry. apply (Nat.div_unique _ _ _ x); lia.
Qed.

(** The sharp mask is white exactly where the rasterizer paints. *)
Lemma sharp_mask_wf (s : nat * nat) (r : Z) : wf (painted_mask fill blur s r 0).
Proof.
  destruct s as [w h]. unfold wf, width, height. simpl.
  unfold paint_rounded_rectangle. simpl.
  by rewrite length_imap, length_replicate.
Qed.

Lemma sharp_mask_pixel (w h x y : nat) (r : Z) :
  x < w → y < h →
  im_data (painted_mask fill blur (w, h) r 0) !! (y * w + x) =
    Some (if fill (0, 0, Z.of_nat w, Z.of_nat h)%Z r (Z.of_nat x) (Z.of_nat y)
          then 255%Z else 0%Z).
Proof.
  intros Hx Hy. destruct (pixel_index w h x y Hx Hy) as (Hi & Hm & Hd).
  simpl. unfold paint_rounded_rectangle. simpl.
  rewrite list_lookup_imap, lookup_replicate_2 by done. simpl.
  unfold width. simpl. by rewrite Hm, Hd.
Qed.

(** A pixel of the frame the pipeline returns. *)
Lemma pasted_getpixel (alphas : list Z) (pal : Image Z) (x y : nat) (a v : Z) :
  x < width pal → y < height pal →
  alphas !! (y * width pal + x) = Some a →
  im_data pal !! (y * width pal + x) = Some v →
  getpixel (pasted alphas pal) x y =
    Some (if (a <=? 128)%Z then 255%Z else v).
Proof.
  intros Hx Hy Ha Hv. unfold getpixel, pasted, width, height in *. simpl.
  rewrite decide_True by done.
  rewrite lookup_zip_with, list_lookup_fmap, Ha, Hv. simpl. f_equal.
  unfold alpha_threshold.
  case_match; [apply blend_opaque_mask | apply blend_clear_mask].
Qed.


Lemma pipeline_getpixel (f : frame) (alphas : list Z) (x y : nat) (a : Z) :
  let pal := q 255%Z (convert_RGB (convert_RGBA f)) in
  frame_wf f →
  quantize_keeps_size q → quantize_keeps_length q → quantize_in_range q →
  x < (frame_size f).1 → y < (frame_size f).2 →
  alphas !! (y * (frame_size f).1 + x) = Some a →
  ∃ v, getpixel (pasted alphas pal) x y = Some (if (a <=? 128)%Z then 255%Z else v) ∧
       im_data pal !! (y * (frame_size f).1 + x) = Some v ∧ (0 ≤ v < 255)%Z.
Proof.
  intros pal Hwf Hsize Hlen Hrange Hx Hy Ha.
  assert (im_size pal = frame_size f) as Hpal.
  { unfold pal. rewrite Hsize. simpl. apply convert_RGBA_size. }
  destruct (pixel_index _ _ x y Hx Hy) as (Hi & _ & _).
  destruct (lookup_lt_is_Some_2 (im_data (convert_RGBA f))
              (y * (frame_size f).1 + x)) as [px Hpx].
  { apply convert_RGBA_wf in Hwf. unfold wf, width, height in Hwf.
    by rewrite Hwf, convert_RGBA_size. }
  destruct (quantized_lookup _ _ _ Hlen Hrange Hpx) as (v & Hv & Hlt).
  exists v. split; [|split; [done|lia]].
  apply pasted_getpixel; unfold width, height; fold pal; rewrite Hpal; done.
Qed.



(** *** Corners and centre *)

(** A pixel of the frame the pipeline returns without blur: transparent
    where the rasterizer does not paint, the quantizer's index where it
    does. *)
Lemma sharp_pipeline_getpixel (f : frame) (r : Z) (x y : nat) :
  let pal := q 255%Z (convert_RGB (convert_RGBA f)) in
  let mask := painted_mask fill blur (frame_size f) r 0 in
  let box := (0, 0, Z.of_nat (frame_size f).1, Z.of_nat (frame_size f).2)%Z in
  frame_wf f →
  quantize_keeps_size q → quantize_keeps_length q → quantize_in_range q →
  x < (frame_size f).1 → y < (frame_size f).2 →
  ∃ v, getpixel (pasted (im_data mask) pal) x y =
         Some (if fill box r (Z.of_nat x) (Z.of_nat y) then v else 255%Z) ∧
       (0 ≤ v < 255)%Z.
Proof.
  intros pal mask box Hwf Hsize Hlen Hrange Hx Hy.
  pose proof (sharp_mask_pixel (frame_size f).1 (frame_size f).2 x y r Hx Hy) as Hm.
  rewrite <- surjective_pairing in Hm. fold mask box in Hm.
  destruct (pipeline_getpixel f (im_data mask) x y _ Hwf Hsize Hlen Hrange Hx Hy Hm)
    as (v & Hv & _ & Hlt).
  exists v. split; [|done]. fold pal in Hv. rewrite Hv.
  by destruct (fill box r _ _).
Qed.

(** C1, as the code has it: without blur, for every corner radius from
    5 up to half the shorter side of the frame, the four corner pixels
    of the returned frame are the transparent index 255 and the pixel at
    the centre is not. *)
Theorem corners_transparent_center_opaque (f : frame) (corner_radius : Z) :
  let w := (frame_size f).1 in
  let h := (frame_size f).2 in
  fills_inner fill → fills_within fill →
  quantize_keeps_size q → quantize_keeps_length q → quantize_in_range q →
  frame_wf f →
  (5 ≤ corner_radius)%Z → (2 * corner_radius ≤ Z.of_nat (w `min` h))%Z →
  ∃ out,
    mask_rounded_corners fill blur f corner_radius 0
      ≫= transparent_indexed_gif_frame q = inr out ∧
    getpixel out 0 0 = Some 255%Z ∧
    getpixel out (w - 1) 0 = Some 255%Z ∧
    getpixel out 0 (h - 1) = Some 255%Z ∧
    getpixel out (w - 1) (h - 1) = Some 255%Z ∧
    ∃ v, getpixel out (w `div` 2) (h `div` 2) = Some v ∧ v ≠ 255%Z.
Proof.
  intros w h Hin Hout Hsize Hlen Hrange Hwf Hr Hfit.
  assert (0 ≤ corner_radius ∧ 2 * corner_radius ≤ Z.of_nat (w `min` h))%Z
    as Hfit' by lia.
  rewrite pipeline_returns;
    [|lia|done|done|apply painted_mask_sharp_size|apply sharp_mask_wf].
  eexists. split; [done|].
  assert (∀ x y, (x = 0 ∨ x = w - 1) → (y = 0 ∨ y = h - 1) →
    getpixel (pasted (im_data (painted_mask fill blur (frame_size f) corner_radius 0))
                (q 255%Z (convert_RGB (convert_RGBA f)))) x y = Some 255%Z) as Hcorner.
  { intros x y Hx Hy.
    destruct (sharp_pipeline_getpixel f corner_radius x y Hwf Hsize Hlen Hrange)
      as (v & Hv & _); [fold w; lia | fold h; lia |].
    rewrite Hv. fold w h.
    by rewrite (corner_not_painted fill w h corner_radius Hfit' x y Hout Hr Hx Hy). }
  split_and!; [apply Hcorner; auto..|].
  destruct (sharp_pipeline_getpixel f corner_radius (w `div` 2) (h `div` 2)
              Hwf Hsize Hlen Hrange) as (v & Hv & Hlt).
  { fold w. apply Nat.div_lt; lia. }
  { fold h. apply Nat.div_lt; lia. }
  exists v. split; [|lia]. rewrite Hv. fold w h.
  by rewrite (center_painted fill w h corner_radius Hfit' Hin).
Qed.

(** With radius 0 nothing is rounded: every pixel, the corners
    included, keeps the index the quantizer gave it. *)
Lemma square_corners_opaque (f : frame) (x y : nat) :
  fills_inner fill →
  quantize_keeps_size q → quantize_keeps_length q → quantize_in_range q →
  frame_wf f → x < (frame_size f).1 → y < (frame_size f).2 →
  ∃ out v,
    mask_rounded_corners fill blur f 0 0
      ≫= transparent_indexed_gif_frame q = inr out ∧
    getpixel out x y = Some v ∧ v ≠ 255%Z.
Proof.
  intros Hin Hsize Hlen Hrange Hwf Hx Hy.
  rewrite pipeline_returns;
    [|lia|done|done|apply painted_mask_sharp_size|apply sharp_mask_wf].
  destruct (sharp_pipeline_getpixel f 0 x y Hwf Hsize Hlen Hrange Hx Hy)
    as (v & Hv & Hlt).
  eexists _, v. split; [done|]. split; [|lia]. rewrite Hv.
  rewrite (square_corners_painted fill (frame_size f).1 (frame_size f).2 0);
    [done|lia|done|done|lia|lia].
Qed.

(** *** Masking twice *)

Lemma zip_set_alpha_twice (d : list rgba) (m : list Z) :
  zip_with set_alpha (zip_with set_alpha d m) m = zip_with set_alpha d m.
Proof.
  revert m. induction d as [|[[[r g] b] a] d IH]; intros [|x m]; simpl; [done..|].
  f_equal. apply IH.
Qed.

(** C8: masking a frame that [mask_rounded_corners] returned, with the
    same corner and blur radius, gives the same alpha channel; the two
    are equal for every blur radius, 0 included.  The corner radius is
    one the drawing call takes, 0 or more. *)
Theorem masking_twice_keeps_alpha (f : frame) (corner_radius blur_radius : Z) :
  (0 ≤ corner_radius)%Z →
  blur_keeps_size blur →
  ∃ once twice,
    mask_rounded_corners fill blur f corner_radius blur_radius = inr once ∧
    mask_rounded_corners fill blur (ModeRGBA once) corner_radius blur_radius = inr twice ∧
    getchannel_A twice = getchannel_A once.
Proof.
  intros Hr Hb.
  rewrite (mask_rounded_corners_returns f); [|done|by apply painted_mask_size].
  eexists _, _. split; [done|].
  rewrite mask_rounded_corners_returns; [|done|by apply painted_mask_size].
  split; [done|]. simpl. rewrite convert_RGBA_size.
  unfold copy, getchannel_A, with_data. simpl.
  by rewrite zip_set_alpha_twice.
Qed.

(** *** Blur *)

Lemma soft_mask_is_blurred_sharp (s : nat * nat) (r b : Z) :
  (0 < b)%Z →
  painted_mask fill blur s r b = blur b (painted_mask fill blur s r 0).
Proof.
  intros Hb. destruct s as [w h]. unfold painted_mask.
  by rewrite (proj2 (Z.ltb_lt 0 b) Hb).
Qed.

Lemma pasted_pixel_cases (alphas : list Z) (pal : Image Z) (i : nat) (v : Z) :
  im_data (pasted alphas pal) !! i = Some v →
  v = 255%Z ∨ im_data pal !! i = Some v.
Proof.
  unfold pasted. simpl. rewrite lookup_zip_with, list_lookup_fmap.
  destruct (alphas !! i) as [a|]; [|done]. simpl.
  destruct (im_data pal !! i) as [p|]; [|done]. simpl.
  intros [= <-]. unfold alpha_threshold.
  case_match; [left; apply blend_opaque_mask | right; by rewrite blend_clear_mask].
Qed.

(** C7, as the code has it: the blur reaches the returned frame only
    through the threshold on the mask.  With and without blur the frame
    has the same size, palette and metadata, and a pixel differs exactly
    where blurring moves the mask across the threshold (at most 128
    against above 128); the two frames are equal exactly when that
    happens nowhere.  In both frames every pixel is index 255 or the
    index the quantizer gave it: no partial transparency is left. *)
Theorem blur_acts_through_threshold (f : frame) (corner_radius blur_radius : Z) :
  let sharp := painted_mask fill blur (frame_size f) corner_radius 0 in
  let soft := blur blur_radius sharp in
  let quantized := q 255%Z (convert_RGB (convert_RGBA f)) in
  (0 ≤ corner_radius)%Z →
  frame_wf f → blur_keeps_size blur → blur_keeps_wf blur →
  quantize_keeps_size q → quantize_keeps_length q → quantize_in_range q →
  (0 < blur_radius)%Z →
  ∃ out_sharp out_soft,
    mask_rounded_corners fill blur f corner_radius 0
      ≫= transparent_indexed_gif_frame q = inr out_sharp ∧
    mask_rounded_corners fill blur f corner_radius blur_radius
      ≫= transparent_indexed_gif_frame q = inr out_soft ∧
    im_size out_soft = im_size out_sharp ∧
    im_palette out_soft = im_palette out_sharp ∧
    im_info out_soft = im_info out_sharp ∧
    (∀ i a a', im_data sharp !! i = Some a → im_data soft !! i = Some a' →
       im_data out_soft !! i = im_data out_sharp !! i ↔
       ((a' ≤ 128)%Z ↔ (a ≤ 128)%Z)) ∧
    (out_soft = out_sharp ↔
     alpha_threshold <$> im_data soft = alpha_threshold <$> im_data sharp) ∧
    (∀ i v, im_data out_sharp !! i = Some v →
       v = 255%Z ∨ im_data quantized !! i = Some v) ∧
    (∀ i v, im_data out_soft !! i = Some v →
       v = 255%Z ∨ im_data quantized !! i = Some v).
Proof.
  intros sharp soft pal Hr Hwf Hbs Hbw Hsize Hlen Hrange Hb.
  assert (im_size sharp = frame_size f) as Hss by apply painted_mask_sharp_size.
  assert (wf sharp) as Hsw by apply sharp_mask_wf.
  rewrite (pipeline_returns f corner_radius 0) by done.
  rewrite (pipeline_returns f corner_radius blur_radius); fold sharp;
    rewrite ?soft_mask_is_blurred_sharp by done; fold sharp soft;
    [|done|done|done|by unfold soft; rewrite Hbs|by apply Hbw].
  fold pal.
  eexists _, _. split; [done|]. split; [done|].
  split; [done|]. split; [done|]. split; [done|].
  assert (length (im_data soft) = length (im_data sharp)) as Hlsoft.
  { assert (wf soft) as Hw by by apply Hbw.
    unfold wf, width, height in *. rewrite Hw, Hsw. unfold soft. by rewrite Hbs. }
  assert (length (im_data pal) = length (im_data sharp)) as Hlpal.
  { unfold pal. rewrite Hlen. simpl. rewrite length_fmap.
    apply convert_RGBA_wf in Hwf. unfold wf, width, height in *.
    by rewrite Hwf, Hsw, Hss, convert_RGBA_size. }
  assert (∀ i a a', im_data sharp !! i = Some a → im_data soft !! i = Some a' →
    im_data (pasted (im_data soft) pal) !! i = im_data (pasted (im_data sharp) pal) !! i ↔
    ((a' ≤ 128)%Z ↔ (a ≤ 128)%Z)) as Hpix.
  { intros i a a' Ha Ha'.
    destruct (lookup_lt_is_Some_2 (im_data pal) i) as [v Hv].
    { rewrite Hlpal. by eapply lookup_lt_Some. }
    assert (0 ≤ v < 255)%Z as Hlt.
    { apply (Hrange 255%Z (convert_RGB (convert_RGBA f))); [lia|].
      by eapply list_elem_of_lookup_2. }
    unfold pasted. simpl.
    rewrite !lookup_zip_with, !list_lookup_fmap, Ha, Ha', Hv. simpl.
    unfold alpha_threshold.
    destruct (Z.leb_spec a' 128), (Z.leb_spec a 128);
      rewrite ?blend_opaque_mask, ?blend_clear_mask;
      split; intros; simplify_eq; try done; lia. }
  split; [done|]. split; [|split; intros i v; apply pasted_pixel_cases]. split.
  - intros Heq. apply list_eq. intros i. rewrite !list_lookup_fmap.
    destruct (im_data sharp !! i) as [a|] eqn:Ha.
    + destruct (lookup_lt_is_Some_2 (im_data soft) i) as [a' Ha'].
      { rewrite Hlsoft. by eapply lookup_lt_Some. }
      rewrite Ha'. simpl. f_equal.
      assert ((a' ≤ 128)%Z ↔ (a ≤ 128)%Z) as Hiff.
      { apply (Hpix i a a' Ha Ha'). by rewrite Heq. }
      unfold alpha_threshold.
      destruct (Z.leb_spec a' 128), (Z.leb_spec a 128); try done; lia.
    + apply lookup_ge_None in Ha. rewrite <- Hlsoft in Ha.
      apply lookup_ge_None in Ha. by rewrite Ha.
  - intros Heq. unfold pasted. by rewrite Heq.
Qed.

(** *** Image objects *)

Lemma st_bind_run {A B} (m : ST A) (k : A → ST B) (σ σ' : gmap loc frame) (x : A) :
  m σ = (inr x, σ') → (m ≫= k) σ = k x σ'.
Proof. intros Hm. unfold mbind, ST_bind. by rewrite Hm. Qed.

Lemma obj_convert_RGBA_run (σ : gmap loc frame) (l : loc) (o : frame) :
  σ !! l = Some o →
  obj_convert_RGBA l σ =
    (inr (fresh (dom σ)), <[fresh (dom σ) := ModeRGBA (convert_RGBA o)]> σ).
Proof.
  intros Hl. unfold obj_convert_RGBA, mbind, ST_bind, st_load. by rewrite Hl.
Qed.

Lemma obj_size_run (σ : gmap loc frame) (l : loc) (o : frame) :
  σ !! l = Some o → obj_size l σ = (inr (frame_size o), σ).
Proof. intros Hl. unfold obj_size, mbind, ST_bind, st_load. by rewrite Hl. Qed.

Lemma obj_rounded_rectangle_run (σ : gmap loc frame) (l : loc) (m : Image Z) xy r c :
  (0 ≤ r)%Z →
  σ !! l = Some (ModeL m) →
  obj_rounded_rectangle fill l xy r c σ =
    (inr (), <[l := ModeL (paint_rounded_rectangle fill xy r c m)]> σ).
Proof.
  intros Hr Hl.
  unfold obj_rounded_rectangle, mbind, ST_bind, st_load, st_lift, draw_rounded_rectangle.
  by rewrite Hl, (proj2 (Z.ltb_ge r 0) Hr).
Qed.

Lemma obj_filter_GaussianBlur_run (σ : gmap loc frame) (l : loc) (m : Image Z) r :
  σ !! l = Some (ModeL m) →
  obj_filter_GaussianBlur blur l r σ =
    (inr (fresh (dom σ)), <[fresh (dom σ) := ModeL (blur r m)]> σ).
Proof.
  intros Hl. unfold obj_filter_GaussianBlur, mbind, ST_bind, st_load. by rewrite Hl.
Qed.

Lemma obj_copy_run (σ : gmap loc frame) (l : loc) (o : frame) :
  σ !! l = Some o →
  obj_copy l σ = (inr (fresh (dom σ)), <[fresh (dom σ) := o]> σ).
Proof. intros Hl. unfold obj_copy, mbind, ST_bind, st_load. by rewrite Hl. Qed.

Lemma obj_putalpha_run (σ : gmap loc frame) (l lmask : loc)
    (im im' : Image rgba) (alpha : Image Z) :
  σ !! l = Some (ModeRGBA im) → σ !! lmask = Some (ModeL alpha) →
  putalpha im alpha = inr im' →
  obj_putalpha l lmask σ = (inr (), <[l := ModeRGBA im']> σ).
Proof.
  intros Hl Hm Hp. unfold obj_putalpha, mbind, ST_bind, st_load, st_lift.
  by rewrite Hl, Hm, Hp.
Qed.

Lemma fresh_lookup (σ : gmap loc frame) : σ !! fresh (dom σ) = None.
Proof. apply not_elem_of_dom, is_fresh. Qed.

Lemma fresh_other (σ : gmap loc frame) (k : loc) (o : frame) :
  σ !! k = Some o → fresh (dom σ) ≠ k.
Proof. intros Hk Heq. subst k. by rewrite fresh_lookup in Hk. Qed.

(** The program over objects returns a new object that holds what
    [mask_rounded_corners] computes, and leaves every object that
    existed before as it was. *)
Lemma mask_rounded_corners_obj_run
    (σ : gmap loc frame) (l : loc) (f : frame) (r b : Z) (res : Image rgba) :
  σ !! l = Some f →
  mask_rounded_corners fill blur f r b = inr res →
  ∃ l' σ',
    mask_rounded_corners_obj fill blur l r b σ = (inr l', σ') ∧
    σ !! l' = None ∧
    σ' !! l' = Some (ModeRGBA res) ∧
    (∀ k o, σ !! k = Some o → σ' !! k = Some o).
Proof.
  intros Hl Hres.
  assert (0 ≤ r)%Z as Hr.
  { destruct (Z.le_gt_cases 0 r) as [|Hneg]; [done|].
    by rewrite mask_rounded_corners_raises in Hres. }
  unfold mask_rounded_corners, copy in Hres.
  rewrite rounded_mask_returns in Hres by done. simpl in Hres.
  set (cf := convert_RGBA f) in *.
  unfold mask_rounded_corners_obj.
  set (l1 := fresh (dom σ)). set (σ1 := <[l1 := ModeRGBA cf]> σ).
  rewrite (st_bind_run _ _ σ σ1 l1) by by apply obj_convert_RGBA_run.
  rewrite (st_bind_run _ _ σ1 σ1 (im_size cf))
    by (apply (obj_size_run σ1 l1 (ModeRGBA cf)); apply lookup_insert_eq).
  destruct (im_size cf) as [w h] eqn:Hsz.
  set (l2 := fresh (dom σ1)).
  set (σ2 := <[l2 := ModeL (Image_new (w, h) 0)]> σ1).
  rewrite (st_bind_run _ _ σ1 σ2 l2) by done.
  set (sharp := paint_rounded_rectangle fill (0, 0, Z.of_nat w, Z.of_nat h)%Z r 255
                  (Image_new (w, h) 0)).
  set (σ3 := <[l2 := ModeL sharp]> σ2).
  rewrite (st_bind_run _ _ σ2 σ3 ())
    by (apply obj_rounded_rectangle_run; [done|apply lookup_insert_eq]).
  assert (σ !! l1 = None) as Hl1 by apply fresh_lookup.
  assert (σ1 !! l2 = None) as Hl2 by apply fresh_lookup.
  assert (l2 ≠ l1) as Hne21.
  { apply (fresh_other σ1 l1 (ModeRGBA cf)), lookup_insert_eq. }
  assert (∀ (s : gmap loc frame) (lm : loc) (m : Image Z),
    s !! lm = Some (ModeL m) → s !! l1 = Some (ModeRGBA cf) →
    (∀ k o, σ !! k = Some o → s !! k = Some o) →
    putalpha cf m = inr res →
    ∃ l' σ',
      (result ← obj_copy l1; obj_putalpha result lm;; mret result) s = (inr l', σ') ∧
      s !! l' = None ∧ σ' !! l' = Some (ModeRGBA res) ∧
      (∀ k o, s !! k = Some o → k ≠ l' ∧ σ' !! k = Some o)) as Hfinish.
  { intros s lm m Hlm Hs1 Hold Hput.
    set (l4 := fresh (dom s)). set (s1 := <[l4 := ModeRGBA cf]> s).
    assert (s !! l4 = None) as Hl4 by apply fresh_lookup.
    assert (l4 ≠ lm) as Hne by by eapply fresh_other.
    rewrite (st_bind_run _ _ s s1 l4) by by apply obj_copy_run.
    rewrite (st_bind_run _ _ s1 (<[l4 := ModeRGBA res]> s1) ()).
    2:{ apply (obj_putalpha_run s1 l4 lm cf res m); [apply lookup_insert_eq| |done].
        unfold s1. by rewrite lookup_insert_ne. }
    eexists _, _. split; [done|]. split; [done|]. split; [apply lookup_insert_eq|].
    intros k o Hk. assert (l4 ≠ k) by by eapply fresh_other.
    split; [done|]. unfold s1. by rewrite !lookup_insert_ne. }
  assert (∀ k o, σ !! k = Some o → σ3 !! k = Some o) as Hold3.
  { intros k o Hk. unfold σ3, σ2, σ1.
    assert (l1 ≠ k) by by eapply fresh_other.
    assert (l2 ≠ k).
    { apply (fresh_other σ1 k o). unfold σ1. by rewrite lookup_insert_ne. }
    by rewrite !lookup_insert_ne. }
  assert (σ3 !! l1 = Some (ModeRGBA cf)) as H31.
  { unfold σ3, σ2. rewrite !lookup_insert_ne by done. apply lookup_insert_eq. }
  unfold painted_mask in Hres. fold sharp in Hres.
  destruct (0 <? b)%Z eqn:Hb.
  - set (l3 := fresh (dom σ3)). set (σ4 := <[l3 := ModeL (blur b sharp)]> σ3).
    rewrite (st_bind_run _ _ σ3 σ4 l3)
      by (apply obj_filter_GaussianBlur_run; apply lookup_insert_eq).
    assert (σ3 !! l3 = None) as Hl3 by apply fresh_lookup.
    assert (l3 ≠ l1) by by eapply fresh_other.
    destruct (Hfinish σ4 l3 (blur b sharp)) as (l' & σ' & Hrun & Hnew & Hres' & Hold);
      [apply lookup_insert_eq|by unfold σ4; rewrite lookup_insert_ne| |done|].
    { intros k o Hk. unfold σ4.
      assert (l3 ≠ k) by (eapply fresh_other; by apply Hold3).
      rewrite lookup_insert_ne by done. by apply Hold3. }
    exists l', σ'. split; [done|]. split_and!; [|done|].
    + destruct (σ !! l') as [o|] eqn:Ho; [|done].
      apply Hold3 in Ho. assert (σ4 !! l' = Some o) as Ho4.
      { unfold σ4. assert (l3 ≠ l') by by eapply fresh_other.
        by rewrite lookup_insert_ne. }
      by rewrite Hnew in Ho4.
    + intros k o Hk. apply (Hold k o). unfold σ4.
      assert (l3 ≠ k) by (eapply fresh_other; by apply Hold3).
      rewrite lookup_insert_ne by done. by apply Hold3.
  - rewrite (st_bind_run _ _ σ3 σ3 l2) by done.
    destruct (Hfinish σ3 l2 sharp) as (l' & σ' & Hrun & Hnew & Hres' & Hold);
      [apply lookup_insert_eq|done|done|done|].
    exists l', σ'. split; [done|]. split_and!; [|done|].
    + destruct (σ !! l') as [o|] eqn:Ho; [|done].
      apply Hold3 in Ho. by rewrite Hnew in Ho.
    + intros k o Hk. by apply (Hold k o), Hold3.
Qed.

Lemma painted_mask_wf (s : nat * nat) (r b : Z) :
  blur_keeps_wf blur → wf (painted_mask fill blur s r b).
Proof.
  intros Hb. destruct (Z.ltb_spec 0 b) as [Hlt|Hge].
  - rewrite soft_mask_is_blurred_sharp by done. apply Hb, sharp_mask_wf.
  - pose proof (sharp_mask_wf s r) as Hw. destruct s as [w h].
    unfold painted_mask in *. simpl in Hw.
    by rewrite (proj2 (Z.ltb_ge 0 b) Hge).
Qed.

(** C9: [mask_rounded_corners] returns a new image object and changes no
    object that existed before, the input included; the alpha band of
    the result is the computed mask, and its colours are those of the
    input converted to "RGBA".  The corner radius is one the drawing
    call takes, 0 or more. *)
Theorem masked_frame_is_new_with_mask_alpha
    (σ : gmap loc frame) (l : loc) (f : frame) (corner_radius blur_radius : Z) :
  let mask := painted_mask fill blur (frame_size f) corner_radius blur_radius in
  (0 ≤ corner_radius)%Z →
  frame_wf f → blur_keeps_size blur → blur_keeps_wf blur →
  σ !! l = Some f →
  ∃ l' σ' result,
    mask_rounded_corners_obj fill blur l corner_radius blur_radius σ = (inr l', σ') ∧
    σ !! l' = None ∧
    σ' !! l = Some f ∧
    (∀ k o, σ !! k = Some o → σ' !! k = Some o) ∧
    σ' !! l' = Some (ModeRGBA result) ∧
    mask_rounded_corners fill blur f corner_radius blur_radius = inr result ∧
    im_size result = frame_size f ∧
    alpha_of <$> im_data result = im_data mask ∧
    color_of <$> im_data result = color_of <$> im_data (convert_RGBA f).
Proof.
  intros mask Hr Hwf Hbs Hbw Hl.
  assert (im_size mask = frame_size f) as Hsize by by apply painted_mask_size.
  pose proof (mask_rounded_corners_returns f corner_radius blur_radius Hr Hsize) as Hres.
  destruct (mask_rounded_corners_obj_run σ l f corner_radius blur_radius _ Hl Hres)
    as (l' & σ' & Hrun & Hnew & Hstored & Hold).
  assert (length (im_data mask) = length (im_data (convert_RGBA f))) as Hlen.
  { pose proof (painted_mask_wf (frame_size f) corner_radius blur_radius Hbw) as Hm.
    apply convert_RGBA_wf in Hwf. fold mask in Hm.
    unfold wf, width, height in *. by rewrite Hm, Hwf, Hsize, convert_RGBA_size. }
  eexists l', σ', _. split_and!; [done|done|by apply Hold|done|done|done|..].
  - apply convert_RGBA_size.
  - simpl. fold mask. by apply zip_set_alpha_alphas.
  - simpl. fold mask. by apply zip_set_alpha_colors.
Qed.

(** *** The orchestrator *)

Lemma io_bind_run {A B} (m : IO A) (k : A → IO B) (w w' : world) (x : A) :
  m w = (inr x, w') → (m ≫= k) w = k x w'.
Proof. intros Hm. unfold mbind, IO_bind. by rewrite Hm. Qed.

Lemma io_bind_raise {A B} (m : IO A) (k : A → IO B) (w w' : world) (e : exn) :
  m w = (inl e, w') → (m ≫= k) w = (inl e, w').
Proof. intros Hm. unfold mbind, IO_bind. by rewrite Hm. Qed.

(** Reading the frames touches neither the files nor the console. *)
Lemma read_frames_world (input_gif : string) (r b : Z) (w : world) :
  (read_frames fill blur q input_gif r b w).2 = w.
Proof.
  unfold read_frames, mbind, IO_bind, Image_open, io_lift.
  destruct (fs w !! input_gif) as [[|[[|x reads] lp dp op]]|]; done.
Qed.

Lemma read_frames_opened (input_gif : string) (r b : Z) (w : world)
    (reads : list frame_read) :
  Image_open input_gif w = (inr reads, w) →
  read_frames fill blur q input_gif r b w =
    (collect_frames fill blur q reads r b [], w).
Proof. intros Ho. unfold read_frames. by rewrite (io_bind_run _ _ _ _ _ Ho). Qed.

(** An image that opens has a first frame. *)
Lemma Image_open_first_frame (path : string) (w w' : world)
    (reads : list frame_read) :
  Image_open path w = (inr reads, w') → reads ≠ [].
Proof.
  unfold Image_open.
  destruct (fs w !! path) as [[|[[|x rest] lp dp op]]|]; simpl; try done.
  by intros [= <- _].
Qed.

Lemma Image_open_animated (path : string) (w : world) (a : animation) :
  fs w !! path = Some (Animated a) → an_frames a ≠ [] →
  Image_open path w = (inr (an_frames a), w).
Proof.
  intros Hfile Hne. unfold Image_open. rewrite Hfile.
  by destruct (an_frames a).
Qed.

Lemma collect_frames_step (f : frame) (rest : list frame_read) (r b : Z)
    (acc : list (Image Z)) (p : Image Z) :
  process_frame fill blur q f r b = inr p →
  collect_frames fill blur q (Decoded f :: rest) r b acc =
    collect_frames fill blur q rest r b (acc ++ [p]).
Proof. intros Hp. simpl. by rewrite Hp. Qed.

(** The loop returns one frame for each frame read. *)
Lemma collect_frames_length (reads : list frame_read) (r b : Z)
    (acc outs : list (Image Z)) :
  collect_frames fill blur q reads r b acc = inr outs →
  length outs = length acc + length reads.
Proof.
  revert acc. induction reads as [|[f|e] reads IH]; intros acc Hc; simpl in *.
  - injection Hc as <-. lia.
  - destruct (process_frame fill blur q f r b) as [e|p]; [done|]. simpl in Hc.
    apply IH in Hc. rewrite length_app in Hc. simpl in Hc. lia.
  - done.
Qed.

(** Every frame that decodes is processed, in order, once the radius is
    one the drawing call takes and the library keeps to its size
    contracts. *)
Lemma collect_frames_decoded (fl : list frame) (r b : Z) (acc : list (Image Z)) :
  (0 ≤ r)%Z → blur_keeps_size blur → quantize_keeps_size q →
  ∃ outs,
    collect_frames fill blur q (Decoded <$> fl) r b acc = inr (acc ++ outs) ∧
    Forall2 (λ f p, process_frame fill blur q f r b = inr p) fl outs.
Proof.
  intros Hr Hb Hq. revert acc. induction fl as [|f fl IH]; intros acc.
  - exists []. by rewrite app_nil_r.
  - destruct (process_frame_returns f r b Hr Hb Hq) as (p & Hp & _).
    destruct (IH (acc ++ [p])) as (outs & Hc & Hall).
    exists (p :: outs). rewrite fmap_cons, (collect_frames_step _ _ _ _ _ _ Hp), Hc.
    split; [by rewrite <- app_assoc|by constructor].
Qed.

(** A frame that fails to decode stops the loop with an exception,
    unless an earlier frame already did. *)
Lemma collect_frames_failing (reads : list frame_read) (r b : Z)
    (acc : list (Image Z)) (e : exn) :
  Failing e ∈ reads →
  ∃ e', collect_frames fill blur q reads r b acc = inl e'.
Proof.
  revert acc. induction reads as [|[f|e0] reads IH]; intros acc Hin.
  - by apply elem_of_nil in Hin.
  - apply elem_of_cons in Hin as [Hin|Hin]; [done|]. simpl.
    destruct (process_frame fill blur q f r b) as [e1|p]; simpl; [by eexists|].
    by apply IH.
  - by eexists.
Qed.

Lemma reads_decoded_or_failing (reads : list frame_read) :
  (∃ fl, reads = Decoded <$> fl) ∨ (∃ e, Failing e ∈ reads).
Proof.
  induction reads as [|[f|e] reads [[fl ->]|[e' He']]].
  - left. by exists [].
  - left. by exists (f :: fl).
  - right. exists e'. by right.
  - right. exists e. by left.
  - right. exists e. by left.
Qed.

(** What is done with the frames collected, case by case. *)
Lemma write_frames_none (input_gif output_gif : string) (w : world) :
  write_frames refused same [] input_gif output_gif w =
    (inr (), mkWorld (fs w) (stdout w ++ ["No frames found in " +:+ input_gif])).
Proof. done. Qed.

Lemma write_frames_saved (frames : list (Image Z)) (input_gif output_gif : string)
    (w : world) :
  frames ≠ [] → refused output_gif = None →
  write_frames refused same frames input_gif output_gif w =
    (inr (),
     mkWorld (<[output_gif := saved_animation (kept_frames same frames)]> (fs w))
       (stdout w ++ ["Saved rounded-corner GIF to: " +:+ output_gif])).
Proof.
  intros Hne Href. destruct frames as [|first rest]; [done|].
  unfold write_frames, mbind, IO_bind, save, print. by rewrite Href.
Qed.

Lemma write_frames_refused (frames : list (Image Z)) (input_gif output_gif : string)
    (w : world) (e : exn) :
  frames ≠ [] → refused output_gif = Some e →
  write_frames refused same frames input_gif output_gif w = (inl e, w).
Proof.
  intros Hne Href. destruct frames as [|first rest]; [done|].
  unfold write_frames, mbind, IO_bind, save, print. by rewrite Href.
Qed.

(** Once the image is open the call is the loop and the writing. *)
Lemma create_rounded_corners_gif_opened
    (input_gif output_gif : string) (r b : Z) (w : world) (reads : list frame_read) :
  Image_open input_gif w = (inr reads, w) →
  create_rounded_corners_gif fill blur q refused same input_gif output_gif r b w =
    round_opened fill blur q refused same reads input_gif output_gif r b w.
Proof.
  intros Hopen. unfold create_rounded_corners_gif, round_opened.
  unfold mbind, IO_bind, io_lift.
  rewrite (read_frames_opened _ r b _ _ Hopen).
  by destruct (collect_frames fill blur q reads r b []).
Qed.

(** C5: when reading or transforming a frame raises, the call raises
    the same exception and has written nothing: the files and the
    console are as before, and [save] was not reached. *)
Theorem failed_frame_writes_nothing
    (input_gif output_gif : string) (corner_radius blur_radius : Z)
    (w w1 : world) (e : exn) :
  read_frames fill blur q input_gif corner_radius blur_radius w = (inl e, w1) →
  ∃ w',
    create_rounded_corners_gif fill blur q refused same input_gif output_gif
      corner_radius blur_radius w = (inl e, w') ∧
    fs w' = fs w ∧ stdout w' = stdout w.
Proof.
  intros Hread. exists w1. split.
  - unfold create_rounded_corners_gif. by rewrite (io_bind_raise _ _ _ _ _ Hread).
  - pose proof (read_frames_world input_gif corner_radius blur_radius w) as Hw.
    rewrite Hread in Hw. simpl in Hw. by subst w1.
Qed.

(** C6, as the code has it: when the iterator yields no frame, the
    files stay as they are, the one line that names the input path is
    printed and the call returns.  When the frames all decode, at least
    one of them, and the radius is one the drawing call takes, the
    processed frames go to [save]: if it takes the output path, the file
    holds the frames the writer keeps and the one line that names the
    output path is printed; if it refuses the path, its exception leaves
    the call with nothing written and nothing printed. *)
Theorem no_frames_message_or_saved_output
    (input_gif output_gif : string) (corner_radius blur_radius : Z)
    (w : world) (fl : list frame) :
  let run := round_opened fill blur q refused same (Decoded <$> fl)
               input_gif output_gif corner_radius blur_radius w in
  (0 ≤ corner_radius)%Z → blur_keeps_size blur → quantize_keeps_size q →
  (fl = [] →
   run = (inr (), mkWorld (fs w) (stdout w ++ ["No frames found in " +:+ input_gif]))) ∧
  (fl ≠ [] →
   ∃ outs,
     Forall2 (λ f p, process_frame fill blur q f corner_radius blur_radius = inr p)
       fl outs ∧
     (refused output_gif = None →
      run = (inr (),
             mkWorld
               (<[output_gif := saved_animation (kept_frames same outs)]> (fs w))
               (stdout w ++ ["Saved rounded-corner GIF to: " +:+ output_gif]))) ∧
     (∀ e, refused output_gif = Some e → run = (inl e, w))) ∧
  (∀ a, fs w !! input_gif = Some (Animated a) → an_frames a = Decoded <$> fl →
     fl ≠ [] →
     create_rounded_corners_gif fill blur q refused same input_gif output_gif
       corner_radius blur_radius w = run).
Proof.
  intros run Hr Hb Hq. split_and!.
  - intros ->. done.
  - intros Hne.
    destruct (collect_frames_decoded fl corner_radius blur_radius [] Hr Hb Hq)
      as (outs & Hc & Hall).
    exists outs. split; [done|].
    assert (outs ≠ []) as Hne'.
    { destruct Hall; [done|discriminate]. }
    unfold run, round_opened, mbind, IO_bind, io_lift. rewrite Hc. simpl. split.
    + intros Href. by apply write_frames_saved.
    + intros e Href. by apply write_frames_refused.
  - intros a Hfile Hframes Hne. apply create_rounded_corners_gif_opened.
    rewrite <- Hframes. apply Image_open_animated; [done|].
    rewrite Hframes. by destruct fl.
Qed.

(** C10, as the code has it: an input that [Image.open] opens yields at
    least one frame, the list of frames is never empty after the loop
    and the "No frames found" line is never printed.  The output file
    is written when every frame decodes, the radius is one the drawing
    call takes and [save] takes the output path; when a frame fails to
    decode, the exception leaves the call with nothing written and
    nothing printed. *)
Theorem outcomes_after_open
    (input_gif output_gif : string) (corner_radius blur_radius : Z)
    (w : world) (reads : list frame_read) :
  let run := create_rounded_corners_gif fill blur q refused same input_gif output_gif
               corner_radius blur_radius w in
  Image_open input_gif w = (inr reads, w) →
  reads ≠ [] ∧
  (read_frames fill blur q input_gif corner_radius blur_radius w).1 ≠ inr [] ∧
  stdout run.2 ≠ stdout w ++ ["No frames found in " +:+ input_gif] ∧
  ((0 ≤ corner_radius)%Z → blur_keeps_size blur → quantize_keeps_size q →
   (∀ x, x ∈ reads → ∃ f, x = Decoded f) → refused output_gif = None →
   ∃ outs,
     outs ≠ [] ∧
     read_frames fill blur q input_gif corner_radius blur_radius w = (inr outs, w) ∧
     run.1 = inr () ∧
     fs run.2 !! output_gif = Some (saved_animation (kept_frames same outs)) ∧
     stdout run.2 = stdout w ++ ["Saved rounded-corner GIF to: " +:+ output_gif]) ∧
  (∀ e, Failing e ∈ reads → ∃ e', run = (inl e', w)).
Proof.
  intros run Hopen.
  pose proof (Image_open_first_frame _ _ _ _ Hopen) as Hne.
  pose proof (read_frames_opened input_gif corner_radius blur_radius w _ Hopen) as Hread.
  assert ((read_frames fill blur q input_gif corner_radius blur_radius w).1 ≠ inr [])
    as Hnonempty.
  { rewrite Hread. simpl. intros Hc. apply collect_frames_length in Hc.
    destruct reads; [done|]. simpl in Hc. lia. }
  split_and!; [done|done| | |].
  - unfold run, create_rounded_corners_gif.
    destruct (collect_frames fill blur q reads corner_radius blur_radius [])
      as [e|[|first rest]] eqn:Hc.
    + rewrite (io_bind_raise _ _ _ _ _ Hread). simpl. intros Heq.
      apply (f_equal length) in Heq. rewrite length_app in Heq. simpl in Heq. lia.
    + rewrite Hread in Hnonempty. done.
    + rewrite (io_bind_run _ _ _ _ _ Hread).
      destruct (refused output_gif) as [e|] eqn:Href.
      * rewrite (write_frames_refused _ _ _ _ e) by done. simpl. intros Heq.
        apply (f_equal length) in Heq. rewrite length_app in Heq. simpl in Heq. lia.
      * rewrite write_frames_saved by done. simpl. intros Heq.
        apply app_inj_tail in Heq as [_ Heq]. discriminate Heq.
  - intros Hr Hb Hq Hall Href.
    assert (∃ fl, reads = Decoded <$> fl) as [fl ->].
    { destruct (reads_decoded_or_failing reads) as [|[e He]]; [done|].
      by destruct (Hall _ He). }
    destruct (collect_frames_decoded fl corner_radius blur_radius [] Hr Hb Hq)
      as (outs & Hc & Hall').
    simpl in Hc. rewrite Hc in Hread. exists outs.
    assert (outs ≠ []) as Hne'.
    { intros ->. rewrite Hread in Hnonempty. done. }
    split; [done|]. split; [done|].
    unfold run, create_rounded_corners_gif.
    rewrite (io_bind_run _ _ _ _ _ Hread), write_frames_saved by done. simpl.
    split; [done|]. split; [apply lookup_insert_eq|done].
  - intros e Hin.
    destruct (collect_frames_failing reads corner_radius blur_radius [] e Hin)
      as [e' He'].
    exists e'. rewrite He' in Hread. unfold run, create_rounded_corners_gif.
    by rewrite (io_bind_raise _ _ _ _ _ Hread).
Qed.

End Properties.

(** ** The reference instances meet the contracts *)

Lemma ideal_radius (xy : Z * Z * Z * Z) (r : Z) :
  radius_fits xy r →
  let '(x0, y0, x1, y1) := xy in
  Z.max 0 (Z.min r (Z.min ((x1 - x0) `div` 2) ((y1 - y0) `div` 2))) = r.
Proof.
  destruct xy as [[[x0 y0] x1] y1]. unfold radius_fits. intros (H0 & Hx & Hy).
  Z.div_mod_to_equations. lia.
Qed.

Lemma ideal_fills_inner : fills_inner ideal_rounded_rectangle.
Proof.
  intros xy r x y Hfit Hd. pose proof (ideal_radius xy r Hfit) as Hr.
  destruct xy as [[[x0 y0] x1] y1]. unfold ideal_rounded_rectangle.
  rewrite Hr. apply bool_decide_eq_true. rewrite Hd.
  destruct Hfit as (H0 & _). nia.
Qed.

Lemma ideal_fills_within : fills_within ideal_rounded_rectangle.
Proof.
  intros xy r x y Hfit Hp. pose proof (ideal_radius xy r Hfit) as Hr.
  destruct xy as [[[x0 y0] x1] y1]. unfold ideal_rounded_rectangle in Hp.
  rewrite Hr in Hp. apply bool_decide_eq_true in Hp.
  destruct Hfit as (H0 & _). lia.
Qed.

Lemma grown_fills_inner : fills_inner grown_rounded_rectangle.
Proof.
  intros xy r x y Hfit Hd. pose proof (ideal_radius xy r Hfit) as Hr.
  destruct xy as [[[x0 y0] x1] y1]. unfold grown_rounded_rectangle.
  rewrite Hr. apply bool_decide_eq_true. rewrite Hd.
  destruct Hfit as (H0 & _). nia.
Qed.

Lemma grown_fills_within : fills_within grown_rounded_rectangle.
Proof.
  intros xy r x y Hfit Hp. pose proof (ideal_radius xy r Hfit) as Hr.
  destruct xy as [[[x0 y0] x1] y1]. unfold grown_rounded_rectangle in Hp.
  rewrite Hr in Hp. by apply bool_decide_eq_true in Hp.
Qed.

(** Below radius 5 the contracts do not settle the corners: the grown
    shape meets both and paints the bottom right pixel of the image. *)
Lemma grown_paints_corner_below_5 (w h : nat) (r : Z) :
  (1 ≤ r ≤ 4)%Z → (2 * r ≤ Z.of_nat (w `min` h))%Z →
  grown_rounded_rectangle (0, 0, Z.of_nat w, Z.of_nat h)%Z r
    (Z.of_nat (w - 1)) (Z.of_nat (h - 1)) = true.
Proof.
  intros Hr Hfit.
  assert (radius_fits (0, 0, Z.of_nat w, Z.of_nat h)%Z r) as Hrf
    by (unfold radius_fits; lia).
  pose proof (ideal_radius _ r Hrf) as Hclamp.
  unfold grown_rounded_rectangle. rewrite Hclamp.
  apply bool_decide_eq_true. unfold dist2_inner, nearest.
  replace (Z.max (0 + r) (Z.min (Z.of_nat (w - 1)) (Z.of_nat w - r)))
    with (Z.of_nat w - r)%Z by lia.
  replace (Z.max (0 + r) (Z.min (Z.of_nat (h - 1)) (Z.of_nat h - r)))
    with (Z.of_nat h - r)%Z by lia.
  replace (Z.of_nat (w - 1)) with (Z.of_nat w - 1)%Z by lia.
  replace (Z.of_nat (h - 1)) with (Z.of_nat h - 1)%Z by lia.
  nia.
Qed.

Lemma mean_filter_keeps_size : blur_keeps_size mean_filter.
Proof. done. Qed.

Lemma mean_filter_keeps_wf : blur_keeps_wf mean_filter.
Proof.
  intros r m Hm. unfold wf, width, height, mean_filter in *. simpl.
  by rewrite length_imap.
Qed.

Lemma first_colors_keeps_size : quantize_keeps_size first_colors.
Proof. done. Qed.

Lemma first_colors_keeps_length : quantize_keeps_length first_colors.
Proof. intros n im. unfold first_colors. simpl. by rewrite length_fmap. Qed.

Lemma first_colors_in_range : quantize_in_range first_colors.
Proof.
  intros n im v Hn Hv. unfold first_colors in Hv. simpl in Hv.
  apply list_elem_of_fmap in Hv as (c & -> & _).
  destruct (list_find _ _) as [[i p]|] eqn:Hfind; [|lia].
  apply list_find_Some in Hfind as (Hi & _). apply lookup_lt_Some in Hi.
  rewrite length_take in Hi. lia.
Qed.

(** With the grown shape the pipeline leaves the bottom right pixel
    visible for every radius from 1 to 4. *)
Lemma corner_visible_below_radius_5 (f : frame) (r : Z) :
  let w := (frame_size f).1 in
  let h := (frame_size f).2 in
  frame_wf f → (1 ≤ r ≤ 4)%Z → (2 * r ≤ Z.of_nat (w `min` h))%Z →
  ∃ v, getpixel
         (pasted (im_data (painted_mask grown_rounded_rectangle mean_filter
                             (frame_size f) r 0))
            (first_colors 255%Z (convert_RGB (convert_RGBA f))))
         (w - 1) (h - 1) = Some v ∧ v ≠ 255%Z.
Proof.
  intros w h Hwf Hr Hfit.
  destruct (sharp_pipeline_getpixel grown_rounded_rectangle mean_filter first_colors
              f r (w - 1) (h - 1) Hwf first_colors_keeps_size
              first_colors_keeps_length first_colors_in_range)
    as (v & Hv & Hlt); [fold w; lia | fold h; lia |].
  exists v. split; [|lia]. rewrite Hv. fold w h.
  by rewrite grown_paints_corner_below_5.
Qed.

(** ** The theorems at sample inputs *)

Lemma corners_transparent_center_opaque_witness :
  frame_wf (opaque_frame 100 100) ∧ (5 ≤ 20)%Z ∧ (2 * 20 ≤ Z.of_nat (100 `min` 100))%Z ∧
  ∃ out,
    ref_mask (opaque_frame 100 100) 20%Z 0%Z ≫= ref_quantized = inr out ∧
    getpixel out 0 0 = Some 255%Z ∧
    getpixel out 99 0 = Some 255%Z ∧
    getpixel out 0 99 = Some 255%Z ∧
    getpixel out 99 99 = Some 255%Z ∧
    ∃ v, getpixel out 50 50 = Some v ∧ v ≠ 255%Z.
Proof.
  assert (frame_wf (opaque_frame 100 100)) as Hwf by reflexivity.
  assert (5 ≤ 20)%Z as Hr by lia.
  assert (2 * 20 ≤ Z.of_nat (100 `min` 100))%Z as Hfit by (simpl; lia).
  split_and!; [done..|].
  exact (corners_transparent_center_opaque ideal_rounded_rectangle mean_filter
           first_colors (opaque_frame 100 100) 20%Z
           ideal_fills_inner ideal_fills_within
           first_colors_keeps_size first_colors_keeps_length first_colors_in_range
           Hwf Hr Hfit).
Defined.

(** With radius 0 the top left pixel of the returned frame is a visible
    colour, not the transparent index. *)
Lemma corners_opaque_at_radius_zero :
  ∃ out,
    ref_mask (opaque_frame 10 10) 0%Z 0%Z ≫= ref_quantized = inr out ∧
    getpixel out 0 0 = Some 0%Z ∧
    getpixel out 0 0 ≠ Some 255%Z.
Proof.
  eexists. split; [vm_compute; reflexivity|].
  split; [vm_compute; reflexivity|]. vm_compute. discriminate.
Qed.

Lemma transparent_iff_alpha_le_128_witness :
  ∃ pal_frame,
    transparent_indexed_gif_frame first_colors threshold_pixels = inr pal_frame ∧
    (∀ i px, im_data threshold_pixels !! i = Some px →
       ∃ v, im_data pal_frame !! i = Some v ∧
            (v = 255%Z ↔ (alpha_of px ≤ 128)%Z)) ∧
    (∀ i px, im_data threshold_pixels !! i = Some px → alpha_of px = 128%Z →
       im_data pal_frame !! i = Some 255%Z) ∧
    (∀ i px, im_data threshold_pixels !! i = Some px → alpha_of px = 129%Z →
       ∃ v, im_data pal_frame !! i = Some v ∧ v ≠ 255%Z).
Proof.
  exact (transparent_iff_alpha_le_128 first_colors threshold_pixels
           first_colors_keeps_size first_colors_keeps_length first_colors_in_range).
Defined.

Lemma index_255_reserved_for_transparency_witness :
  ∃ pal_frame,
    transparent_indexed_gif_frame first_colors threshold_pixels = inr pal_frame ∧
    im_info pal_frame !! "transparency" = Some 255%Z ∧
    (∀ k, im_info pal_frame !! "transparency" = Some k → k = 255%Z) ∧
    (∀ v, v ∈ im_data (first_colors 255%Z (convert_RGB threshold_pixels)) →
       (0 ≤ v < 255)%Z) ∧
    (∀ i px, im_data threshold_pixels !! i = Some px → (128 < alpha_of px)%Z →
       ∃ v, im_data pal_frame !! i = Some v ∧
            im_data (first_colors 255%Z (convert_RGB threshold_pixels)) !! i = Some v ∧
            (0 ≤ v < 255)%Z).
Proof.
  exact (index_255_reserved_for_transparency first_colors threshold_pixels
           first_colors_keeps_size first_colors_keeps_length first_colors_in_range).
Defined.

Lemma stages_keep_dimensions_witness :
  (0 ≤ 20)%Z ∧
  (∃ rounded,
     ref_mask (opaque_frame 100 100) 20%Z 3%Z = inr rounded ∧
     im_size rounded = (100, 100)) ∧
  (∀ rgba_frame, ∃ pal_frame,
     transparent_indexed_gif_frame first_colors rgba_frame = inr pal_frame ∧
     im_size pal_frame = im_size rgba_frame) ∧
  (∃ pal_frame,
     process_frame ideal_rounded_rectangle mean_filter first_colors
       (opaque_frame 100 100) 20%Z 3%Z = inr pal_frame ∧
     im_size pal_frame = (100, 100)).
Proof.
  assert (0 ≤ 20)%Z as Hr by lia.
  split; [done|].
  exact (stages_keep_dimensions ideal_rounded_rectangle mean_filter first_colors
           (opaque_frame 100 100) 20%Z 3%Z Hr
           mean_filter_keeps_size first_colors_keeps_size).
Defined.

(** With corner radius -1 the drawing call raises, and so do
    [mask_rounded_corners] and the two stages composed: no frame is
    returned, of any size. *)
Lemma negative_radius_returns_no_frame :
  ref_mask (opaque_frame 10 10) (-1)%Z 3%Z
    = inl (ValueError "x1 must be greater than or equal to x0") ∧
  process_frame ideal_rounded_rectangle mean_filter first_colors
    (opaque_frame 10 10) (-1)%Z 3%Z
    = inl (ValueError "x1 must be greater than or equal to x0") ∧
  ¬ ∃ rounded, ref_mask (opaque_frame 10 10) (-1)%Z 3%Z = inr rounded.
Proof.
  split; [vm_compute; reflexivity|]. split; [vm_compute; reflexivity|].
  intros [rounded Hr]. vm_compute in Hr. discriminate Hr.
Qed.

Lemma failed_frame_writes_nothing_witness :
  read_frames ideal_rounded_rectangle mean_filter first_colors "in.gif" 1%Z 0%Z
    truncated_gif = (inl (OSError "image file is truncated"), truncated_gif) ∧
  ∃ w',
    create_rounded_corners_gif ideal_rounded_rectangle mean_filter first_colors
      gif_extension_only same_raster "in.gif" "out.gif" 1%Z 0%Z truncated_gif
    = (inl (OSError "image file is truncated"), w') ∧
    fs w' = fs truncated_gif ∧ stdout w' = stdout truncated_gif.
Proof.
  assert (read_frames ideal_rounded_rectangle mean_filter first_colors "in.gif"
            1%Z 0%Z truncated_gif
          = (inl (OSError "image file is truncated"), truncated_gif)) as Hread
    by (vm_compute; reflexivity).
  split; [done|].
  exact (failed_frame_writes_nothing ideal_rounded_rectangle mean_filter first_colors
           gif_extension_only same_raster
           "in.gif" "out.gif" 1%Z 0%Z truncated_gif truncated_gif _ Hread).
Defined.

Lemma no_frames_message_or_saved_output_witness :
  let run := round_opened ideal_rounded_rectangle mean_filter first_colors
               gif_extension_only same_raster (Decoded <$> three_tints)
               "in.gif" "out.gif" 20%Z 0%Z three_frames in
  (0 ≤ 20)%Z ∧
  (three_tints = [] →
   run = (inr (), mkWorld (fs three_frames)
                    (stdout three_frames ++ ["No frames found in " +:+ "in.gif"]))) ∧
  (three_tints ≠ [] →
   ∃ outs,
     Forall2 (λ f p, process_frame ideal_rounded_rectangle mean_filter first_colors
                       f 20%Z 0%Z = inr p) three_tints outs ∧
     (gif_extension_only "out.gif" = None →
      run = (inr (),
             mkWorld
               (<["out.gif" := saved_animation (kept_frames same_raster outs)]>
                  (fs three_frames))
               (stdout three_frames ++ ["Saved rounded-corner GIF to: " +:+ "out.gif"]))) ∧
     (∀ e, gif_extension_only "out.gif" = Some e → run = (inl e, three_frames))) ∧
  (∀ a, fs three_frames !! "in.gif" = Some (Animated a) →
     an_frames a = Decoded <$> three_tints → three_tints ≠ [] →
     create_rounded_corners_gif ideal_rounded_rectangle mean_filter first_colors
       gif_extension_only same_raster "in.gif" "out.gif" 20%Z 0%Z three_frames = run).
Proof.
  intros run.
  assert (0 ≤ 20)%Z as Hr by lia.
  split; [done|].
  exact (no_frames_message_or_saved_output ideal_rounded_rectangle mean_filter
           first_colors gif_extension_only same_raster
           "in.gif" "out.gif" 20%Z 0%Z three_frames three_tints Hr
           mean_filter_keeps_size first_colors_keeps_size).
Defined.

(** Three frames are decoded and transformed, and [save] refuses the
    output path, which has no extension: the call raises, no file is
    written and no line is printed. *)
Lemma refused_output_prints_nothing :
  let run := create_rounded_corners_gif ideal_rounded_rectangle mean_filter
               first_colors gif_extension_only same_raster
               "in.gif" "outnoext" 3%Z 0%Z still_frames in
  (∃ outs,
     read_frames ideal_rounded_rectangle mean_filter first_colors "in.gif" 3%Z 0%Z
       still_frames = (inr outs, still_frames) ∧ length outs = 3) ∧
  run.1 = inl (ValueError "unknown file extension: ") ∧
  fs run.2 = fs still_frames ∧
  fs run.2 !! "outnoext" = None ∧
  stdout run.2 = [].
Proof.
  split; [eexists; split; [vm_compute; reflexivity|reflexivity]|].
  split_and!; vm_compute; reflexivity.
Qed.

(** The loop over no frames at all, run. *)
Example no_frames_prints_one_line :
  round_opened ideal_rounded_rectangle mean_filter first_colors
    gif_extension_only same_raster [] "in.gif" "out.gif" 20%Z 0%Z (mkWorld ∅ [])
  = (inr (), mkWorld ∅ ["No frames found in in.gif"]).
Proof. vm_compute. reflexivity. Qed.

(** Three times the same frame, run: the writer keeps one. *)
Example still_frames_saved_as_one :
  ∃ p,
    (create_rounded_corners_gif ideal_rounded_rectangle mean_filter first_colors
       gif_extension_only same_raster "in.gif" "out.gif" 3%Z 0%Z still_frames).2
    = mkWorld (<["out.gif" := saved_animation [p]]> (fs still_frames))
        ["Saved rounded-corner GIF to: out.gif"].
Proof. eexists. vm_compute. reflexivity. Qed.

Lemma masking_twice_keeps_alpha_witness :
  (0 ≤ 20)%Z ∧
  ∃ once twice,
    ref_mask (opaque_frame 100 100) 20%Z 3%Z = inr once ∧
    ref_mask (ModeRGBA once) 20%Z 3%Z = inr twice ∧
    getchannel_A twice = getchannel_A once.
Proof.
  assert (0 ≤ 20)%Z as Hr by lia.
  split; [done|].
  exact (masking_twice_keeps_alpha ideal_rounded_rectangle mean_filter
           (opaque_frame 100 100) 20%Z 3%Z Hr mean_filter_keeps_size).
Defined.

Lemma blur_acts_through_threshold_witness :
  let sharp := painted_mask ideal_rounded_rectangle mean_filter (16, 16) 5 0 in
  let soft := mean_filter 6 sharp in
  let quantized := first_colors 255%Z (convert_RGB (convert_RGBA (opaque_frame 16 16))) in
  (0 ≤ 5)%Z ∧ frame_wf (opaque_frame 16 16) ∧ (0 < 6)%Z ∧
  ∃ out_sharp out_soft,
    ref_mask (opaque_frame 16 16) 5%Z 0%Z ≫= ref_quantized = inr out_sharp ∧
    ref_mask (opaque_frame 16 16) 5%Z 6%Z ≫= ref_quantized = inr out_soft ∧
    im_size out_soft = im_size out_sharp ∧
    im_palette out_soft = im_palette out_sharp ∧
    im_info out_soft = im_info out_sharp ∧
    (∀ i a a', im_data sharp !! i = Some a → im_data soft !! i = Some a' →
       im_data out_soft !! i = im_data out_sharp !! i ↔
       ((a' ≤ 128)%Z ↔ (a ≤ 128)%Z)) ∧
    (out_soft = out_sharp ↔
     alpha_threshold <$> im_data soft = alpha_threshold <$> im_data sharp) ∧
    (∀ i v, im_data out_sharp !! i = Some v →
       v = 255%Z ∨ im_data quantized !! i = Some v) ∧
    (∀ i v, im_data out_soft !! i = Some v →
       v = 255%Z ∨ im_data quantized !! i = Some v).
Proof.
  intros sharp soft quantized.
  assert (0 ≤ 5)%Z as Hr by lia.
  assert (frame_wf (opaque_frame 16 16)) as Hwf by reflexivity.
  assert (0 < 6)%Z as Hb by lia.
  split_and!; [done..|].
  exact (blur_acts_through_threshold ideal_rounded_rectangle mean_filter first_colors
           (opaque_frame 16 16) 5%Z 6%Z Hr Hwf
           mean_filter_keeps_size mean_filter_keeps_wf
           first_colors_keeps_size first_colors_keeps_length first_colors_in_range Hb).
Defined.

(** On a 16 by 16 frame with corner radius 5, a blur of radius 6 lifts
    the mask at the bottom right corner from 0 to above the threshold:
    pixel (15, 15) is transparent without the blur and visible with it. *)
Lemma blurred_output_differs :
  ∃ out_sharp out_soft a,
    ref_mask (opaque_frame 16 16) 5%Z 0%Z ≫= ref_quantized = inr out_sharp ∧
    ref_mask (opaque_frame 16 16) 5%Z 6%Z ≫= ref_quantized = inr out_soft ∧
    getpixel (painted_mask ideal_rounded_rectangle mean_filter (16, 16) 5 0) 15 15
      = Some 0%Z ∧
    getpixel (painted_mask ideal_rounded_rectangle mean_filter (16, 16) 5 6) 15 15
      = Some a ∧ (128 < a)%Z ∧
    getpixel out_sharp 15 15 = Some 255%Z ∧
    getpixel out_soft 15 15 = Some 0%Z ∧
    out_soft ≠ out_sharp.
Proof.
  eexists _, _, _. split; [vm_compute; reflexivity|].
  split; [vm_compute; reflexivity|].
  split; [vm_compute; reflexivity|].
  split; [vm_compute; reflexivity|].
  split; [reflexivity|].
  split; [vm_compute; reflexivity|].
  split; [vm_compute; reflexivity|].
  intros Heq. apply (f_equal (λ o, getpixel o 15 15)) in Heq.
  vm_compute in Heq. discriminate Heq.
Qed.

Lemma masked_frame_is_new_with_mask_alpha_witness :
  let σ : gmap loc frame := {[ 0 := opaque_frame 8 8 ]} in
  let mask := painted_mask ideal_rounded_rectangle mean_filter (8, 8) 3 1 in
  (0 ≤ 3)%Z ∧ frame_wf (opaque_frame 8 8) ∧ σ !! 0 = Some (opaque_frame 8 8) ∧
  ∃ l' σ' result,
    mask_rounded_corners_obj ideal_rounded_rectangle mean_filter 0 3%Z 1%Z σ
    = (inr l', σ') ∧
    σ !! l' = None ∧
    σ' !! 0 = Some (opaque_frame 8 8) ∧
    (∀ k o, σ !! k = Some o → σ' !! k = Some o) ∧
    σ' !! l' = Some (ModeRGBA result) ∧
    ref_mask (opaque_frame 8 8) 3%Z 1%Z = inr result ∧
    im_size result = (8, 8) ∧
    alpha_of <$> im_data result = im_data mask ∧
    color_of <$> im_data result = color_of <$> im_data (convert_RGBA (opaque_frame 8 8)).
Proof.
  intros σ mask.
  assert (0 ≤ 3)%Z as Hr by lia.
  assert (frame_wf (opaque_frame 8 8)) as Hwf by reflexivity.
  assert (σ !! 0 = Some (opaque_frame 8 8)) as Hl by reflexivity.
  split_and!; [done..|].
  exact (masked_frame_is_new_with_mask_alpha ideal_rounded_rectangle mean_filter
           σ 0 (opaque_frame 8 8) 3%Z 1%Z Hr Hwf
           mean_filter_keeps_size mean_filter_keeps_wf Hl).
Defined.

Lemma outcomes_after_open_witness :
  let reads := Decoded <$> three_tints in
  let run := create_rounded_corners_gif ideal_rounded_rectangle mean_filter
               first_colors gif_extension_only same_raster
               "in.gif" "out.gif" 20%Z 0%Z three_frames in
  Image_open "in.gif" three_frames = (inr reads, three_frames) ∧
  reads ≠ [] ∧
  (read_frames ideal_rounded_rectangle mean_filter first_colors "in.gif" 20%Z 0%Z
     three_frames).1 ≠ inr [] ∧
  stdout run.2 ≠ stdout three_frames ++ ["No frames found in " +:+ "in.gif"] ∧
  ((0 ≤ 20)%Z → blur_keeps_size mean_filter → quantize_keeps_size first_colors →
   (∀ x, x ∈ reads → ∃ f, x = Decoded f) → gif_extension_only "out.gif" = None →
   ∃ outs,
     outs ≠ [] ∧
     read_frames ideal_rounded_rectangle mean_filter first_colors "in.gif" 20%Z 0%Z
       three_frames = (inr outs, three_frames) ∧
     run.1 = inr () ∧
     fs run.2 !! "out.gif" = Some (saved_animation (kept_frames same_raster outs)) ∧
     stdout run.2 =
       stdout three_frames ++ ["Saved rounded-corner GIF to: " +:+ "out.gif"]) ∧
  (∀ e, Failing e ∈ reads → ∃ e', run = (inl e', three_frames)).
Proof.
  intros reads run.
  assert (Image_open "in.gif" three_frames = (inr reads, three_frames)) as Hopen
    by reflexivity.
  split; [done|].
  exact (outcomes_after_open ideal_rounded_rectangle mean_filter first_colors
           gif_extension_only same_raster
           "in.gif" "out.gif" 20%Z 0%Z three_frames reads Hopen).
Defined.

(** An input that opens, whose second frame fails to decode: the call
    raises and no output file exists afterwards. *)
Lemma opened_input_can_write_nothing :
  let run := create_rounded_corners_gif ideal_rounded_rectangle mean_filter
               first_colors gif_extension_only same_raster
               "in.gif" "out.gif" 1%Z 0%Z truncated_gif in
  Image_open "in.gif" truncated_gif
  = (inr [Decoded (opaque_frame 4 4); Failing (OSError "image file is truncated")],
     truncated_gif) ∧
  gif_extension_only "out.gif" = None ∧
  run.1 = inl (OSError "image file is truncated") ∧
  fs run.2 !! "out.gif" = None.
Proof.
  split; [reflexivity|]. split; [reflexivity|]. split; vm_compute; reflexivity.
Qed.

(** ** Further properties of the frame transformations *)

Section Further.

Variable fill : Z * Z * Z * Z → Z → Z → Z → bool.
Variable blur : Z → Image Z → Image Z.
Variable q : Z → Image rgb → Image Z.
Variable refused : string → option exn.
Variable same : Image Z → Image Z → bool.

(** *** The blur guard *)

Lemma painted_mask_without_blur (blur1 blur2 : Z → Image Z → Image Z)
    (s : nat * nat) (r b : Z) :
  (b ≤ 0)%Z → painted_mask fill blur1 s r b = painted_mask fill blur2 s r 0.
Proof.
  intros Hb. destruct s as [w h]. unfold painted_mask.
  by rewrite (proj2 (Z.ltb_ge 0 b) Hb).
Qed.

Lemma sharp_mask_binary (s : nat * nat) (r a : Z) :
  a ∈ im_data (painted_mask fill blur s r 0) → a = 0%Z ∨ a = 255%Z.
Proof.
  destruct s as [w h]. simpl. unfold paint_rounded_rectangle. simpl.
  intros Ha. apply list_elem_of_lookup in Ha as [i Hi].
  rewrite list_lookup_imap in Hi.
  destruct (replicate (w * h) 0%Z !! i) as [v|] eqn:Hv; [|done].
  apply lookup_replicate in Hv as [-> _]. simpl in Hi.
  case_match; simplify_eq; auto.
Qed.

(** X1: a blur radius of 0 or less is passed over: for a corner radius
    the drawing call takes the call returns, the blur filter has no part
    in the result, which is the one for blur radius 0, and every alpha of
    the returned frame is 0 or 255. *)
Theorem nonpositive_blur_is_ignored
    (blur' : Z → Image Z → Image Z) (f : frame) (corner_radius blur_radius : Z) :
  (0 ≤ corner_radius)%Z →
  (blur_radius ≤ 0)%Z →
  ∃ result,
    mask_rounded_corners fill blur f corner_radius blur_radius = inr result ∧
    mask_rounded_corners fill blur' f corner_radius blur_radius = inr result ∧
    mask_rounded_corners fill blur f corner_radius 0 = inr result ∧
    (∀ px, px ∈ im_data result → alpha_of px = 0%Z ∨ alpha_of px = 255%Z).
Proof.
  intros Hr Hb.
  assert (∀ bl b, (b ≤ 0)%Z →
    mask_rounded_corners fill bl f corner_radius b =
      inr (with_data (convert_RGBA f)
             (zip_with set_alpha (im_data (convert_RGBA f))
                (im_data (painted_mask fill blur (frame_size f) corner_radius 0)))))
    as Hret.
  { intros bl b Hle.
    rewrite (mask_rounded_corners_returns fill bl f corner_radius b Hr).
    - by rewrite (painted_mask_without_blur bl blur _ _ _ Hle).
    - rewrite (painted_mask_without_blur bl blur _ _ _ Hle).
      apply painted_mask_sharp_size. }
  eexists. split_and!; [by apply Hret..|by apply Hret; lia|].
  simpl. intros px Hpx.
  apply elem_of_lookup_zip_with in Hpx as (i & [[[r0 g0] b0] a0] & a & -> & _ & Ha).
  simpl. apply (sharp_mask_binary (frame_size f) corner_radius).
  by eapply list_elem_of_lookup_2.
Qed.

(** *** The alpha of the input *)

Lemma zip_set_alpha_same_colors (d1 d2 : list rgba) (m : list Z) :
  color_of <$> d1 = color_of <$> d2 →
  zip_with set_alpha d1 m = zip_with set_alpha d2 m.
Proof.
  revert d2 m.
  induction d1 as [|[[[r1 g1] b1] a1] d1 IH];
    intros [|[[[r2 g2] b2] a2] d2] [|x m] Heq; simplify_eq/=; try done.
  f_equal. by apply IH.
Qed.

(** X2: the alpha band of the input has no part in the result: two
    "RGBA" frames of one size, palette and metadata whose pixels have the
    same colours give the same masked frame and the same quantized
    frame, whatever their alpha. *)
Theorem input_alpha_is_discarded
    (im1 im2 : Image rgba) (corner_radius blur_radius : Z) :
  im_size im1 = im_size im2 →
  im_palette im1 = im_palette im2 →
  im_info im1 = im_info im2 →
  color_of <$> im_data im1 = color_of <$> im_data im2 →
  mask_rounded_corners fill blur (ModeRGBA im1) corner_radius blur_radius =
    mask_rounded_corners fill blur (ModeRGBA im2) corner_radius blur_radius ∧
  process_frame fill blur q (ModeRGBA im1) corner_radius blur_radius =
    process_frame fill blur q (ModeRGBA im2) corner_radius blur_radius.
Proof.
  intros Hsize Hpal Hinfo Hcol.
  assert (mask_rounded_corners fill blur (ModeRGBA im1) corner_radius blur_radius =
          mask_rounded_corners fill blur (ModeRGBA im2) corner_radius blur_radius)
    as Heq.
  { destruct im1 as [s1 d1 p1 i1], im2 as [s2 d2 p2 i2]. simpl in *. subst.
    unfold mask_rounded_corners. simpl.
    destruct (rounded_mask fill blur s2 corner_radius blur_radius) as [e|mask];
      [done|].
    simpl. unfold putalpha, copy, with_data. simpl.
    by rewrite (zip_set_alpha_same_colors _ _ _ Hcol). }
  split; [done|]. unfold process_frame. simpl. unfold copy.
  by rewrite Heq.
Qed.


(** *** Which pixels are transparent *)

Lemma mask_rounded_corners_without_blur (f : frame) (r b : Z) :
  (b ≤ 0)%Z →
  mask_rounded_corners fill blur f r b = mask_rounded_corners fill blur f r 0.
Proof.
  intros Hb. unfold mask_rounded_corners.
  destruct (frame_size f) as [w h] eqn:Hs. rewrite convert_RGBA_size, Hs.
  unfold rounded_mask. by rewrite (proj2 (Z.ltb_ge 0 b) Hb).
Qed.

(** X3: when no blur is applied and the corner radius is one the
    drawing call takes, a pixel of the frame the two stages return is
    the transparent index exactly where the rounded rectangle is not
    painted, whatever the colours and the alpha of the input. *)
Theorem transparent_exactly_where_unpainted
    (f : frame) (corner_radius blur_radius : Z) :
  let w := (frame_size f).1 in
  let h := (frame_size f).2 in
  (0 ≤ corner_radius)%Z →
  frame_wf f →
  quantize_keeps_size q → quantize_keeps_length q → quantize_in_range q →
  (blur_radius ≤ 0)%Z →
  ∃ out,
    mask_rounded_corners fill blur f corner_radius blur_radius
      ≫= transparent_indexed_gif_frame q = inr out ∧
    ∀ x y, x < w → y < h →
      ∃ v, getpixel out x y = Some v ∧
           (v = 255%Z ↔
            fill (0, 0, Z.of_nat w, Z.of_nat h)%Z corner_radius
              (Z.of_nat x) (Z.of_nat y) = false).
Proof.
  intros w h Hr Hwf Hsize Hlen Hrange Hb.
  rewrite mask_rounded_corners_without_blur by done.
  rewrite pipeline_returns;
    [|lia|done|done|apply painted_mask_sharp_size|apply sharp_mask_wf].
  eexists. split; [done|]. intros x y Hx Hy.
  destruct (sharp_pipeline_getpixel fill blur q f corner_radius x y
              Hwf Hsize Hlen Hrange Hx Hy) as (v & Hv & Hlt).
  rewrite Hv. fold w h.
  destruct (fill _ _ _ _); eexists; (split; [done|]); split; intros; try done; lia.
Qed.

Lemma inner_rectangle_distance (w h : nat) (r : Z) (x y : nat) :
  (r ≤ Z.of_nat x ≤ Z.of_nat w - r)%Z → (r ≤ Z.of_nat y ≤ Z.of_nat h - r)%Z →
  dist2_inner (0, 0, Z.of_nat w, Z.of_nat h)%Z r (Z.of_nat x) (Z.of_nat y) = 0%Z.
Proof.
  intros Hx Hy. unfold dist2_inner, nearest.
  replace (Z.max (0 + r) (Z.min (Z.of_nat x) (Z.of_nat w - r))) with (Z.of_nat x) by lia.
  replace (Z.max (0 + r) (Z.min (Z.of_nat y) (Z.of_nat h - r))) with (Z.of_nat y) by lia.
  lia.
Qed.

(** X4: when no blur is applied and the radius fits the frame, every
    pixel at least [corner_radius] away from the four sides of the box
    is visible in the returned frame, even where the input was
    transparent; with radius 0 that is every pixel of the frame. *)
Theorem inner_pixels_are_visible (f : frame) (corner_radius blur_radius : Z) :
  let w := (frame_size f).1 in
  let h := (frame_size f).2 in
  fills_inner fill →
  frame_wf f →
  quantize_keeps_size q → quantize_keeps_length q → quantize_in_range q →
  (blur_radius ≤ 0)%Z →
  (0 ≤ corner_radius)%Z → (2 * corner_radius ≤ Z.of_nat (w `min` h))%Z →
  ∃ out,
    mask_rounded_corners fill blur f corner_radius blur_radius
      ≫= transparent_indexed_gif_frame q = inr out ∧
    (∀ x y, x < w → y < h →
       (corner_radius ≤ Z.of_nat x ≤ Z.of_nat w - corner_radius)%Z →
       (corner_radius ≤ Z.of_nat y ≤ Z.of_nat h - corner_radius)%Z →
       ∃ v, getpixel out x y = Some v ∧ v ≠ 255%Z) ∧
    (corner_radius = 0%Z →
     ∀ x y, x < w → y < h → ∃ v, getpixel out x y = Some v ∧ v ≠ 255%Z).
Proof.
  intros w h Hin Hwf Hsize Hlen Hrange Hb Hr Hfit.
  rewrite mask_rounded_corners_without_blur by done.
  rewrite pipeline_returns;
    [|lia|done|done|apply painted_mask_sharp_size|apply sharp_mask_wf].
  eexists. split; [done|].
  assert (∀ x y, x < w → y < h →
    (corner_radius ≤ Z.of_nat x ≤ Z.of_nat w - corner_radius)%Z →
    (corner_radius ≤ Z.of_nat y ≤ Z.of_nat h - corner_radius)%Z →
    ∃ v, getpixel
           (pasted (im_data (painted_mask fill blur (frame_size f) corner_radius 0))
              (q 255%Z (convert_RGB (convert_RGBA f)))) x y = Some v ∧ v ≠ 255%Z)
    as Hinner.
  { intros x y Hx Hy Hxr Hyr.
    destruct (sharp_pipeline_getpixel fill blur q f corner_radius x y
                Hwf Hsize Hlen Hrange Hx Hy) as (v & Hv & Hlt).
    exists v. split; [|lia]. rewrite Hv. fold w h.
    rewrite Hin; [done| |by apply inner_rectangle_distance].
    unfold radius_fits. lia. }
  split; [done|]. intros -> x y Hx Hy. apply Hinner; lia.
Qed.

(** *** Well-formed frames *)

(** X5: for a corner radius the drawing call takes, each stage returns
    a frame with exactly width times height pixels when it is given
    one. *)
Theorem stages_keep_pixel_count (f : frame) (corner_radius blur_radius : Z) :
  (0 ≤ corner_radius)%Z →
  blur_keeps_size blur → blur_keeps_wf blur →
  quantize_keeps_size q → quantize_keeps_length q →
  frame_wf f →
  (∃ rounded,
     mask_rounded_corners fill blur f corner_radius blur_radius = inr rounded ∧
     wf rounded) ∧
  (∀ rgba_frame, wf rgba_frame →
     ∃ pal_frame,
       transparent_indexed_gif_frame q rgba_frame = inr pal_frame ∧ wf pal_frame) ∧
  (∃ pal_frame,
     process_frame fill blur q f corner_radius blur_radius = inr pal_frame ∧
     wf pal_frame).
Proof.
  intros Hr0 Hbs Hbw Hsize Hlen Hwf.
  assert (∀ fr, wf fr → ∃ p, transparent_indexed_gif_frame q fr = inr p ∧ wf p)
    as Hstage2.
  { intros fr Hfr. rewrite transparent_indexed_gif_frame_returns by done.
    eexists. split; [done|]. unfold wf, width, height in *. simpl.
    rewrite length_zip_with, !length_fmap, Hlen, Hsize. simpl.
    rewrite length_fmap. lia. }
  assert (∃ rounded,
    mask_rounded_corners fill blur f corner_radius blur_radius = inr rounded ∧
    wf rounded) as (rounded & Hr & Hrw).
  { rewrite mask_rounded_corners_returns; [|done|by apply painted_mask_size].
    eexists. split; [done|].
    pose proof (painted_mask_wf fill blur (frame_size f) corner_radius blur_radius Hbw)
      as Hm.
    pose proof (painted_mask_size fill blur (frame_size f) corner_radius blur_radius Hbs)
      as Hs.
    apply convert_RGBA_wf in Hwf.
    unfold wf, width, height in *. simpl.
    rewrite length_zip_with, Hm, Hwf, Hs, convert_RGBA_size. lia. }
  split_and!.
  - by exists rounded.
  - done.
  - rewrite process_frame_composes, Hr. simpl. by apply Hstage2.
Qed.


(** *** The quantizer stage over image objects *)

Lemma obj_getchannel_A_run (σ : gmap loc frame) (l : loc) (im : Image rgba) :
  σ !! l = Some (ModeRGBA im) →
  obj_getchannel_A l σ =
    (inr (fresh (dom σ)), <[fresh (dom σ) := ModeL (getchannel_A im)]> σ).
Proof.
  intros Hl. unfold obj_getchannel_A, mbind, ST_bind, st_load. by rewrite Hl.
Qed.

Lemma obj_convert_RGB_run (σ : gmap loc frame) (l : loc) (im : Image rgba) :
  σ !! l = Some (ModeRGBA im) →
  obj_convert_RGB l σ =
    (inr (fresh (dom σ)), <[fresh (dom σ) := ModeRGB (convert_RGB im)]> σ).
Proof.
  intros Hl. unfold obj_convert_RGB, mbind, ST_bind, st_load. by rewrite Hl.
Qed.

Lemma obj_convert_P_run (σ : gmap loc frame) (l : loc) (im : Image rgb) (n : Z) :
  σ !! l = Some (ModeRGB im) →
  obj_convert_P q l n σ =
    (inr (fresh (dom σ)), <[fresh (dom σ) := ModeP (q n im)]> σ).
Proof.
  intros Hl. unfold obj_convert_P, mbind, ST_bind, st_load. by rewrite Hl.
Qed.

Lemma obj_Image_eval_run (σ : gmap loc frame) (l : loc) (m : Image Z) (g : Z → Z) :
  σ !! l = Some (ModeL m) →
  obj_Image_eval l g σ =
    (inr (fresh (dom σ)), <[fresh (dom σ) := ModeL (Image_eval m g)]> σ).
Proof.
  intros Hl. unfold obj_Image_eval, mbind, ST_bind, st_load. by rewrite Hl.
Qed.

Lemma obj_paste_run (σ : gmap loc frame) (l lmask : loc)
    (im im' mask : Image Z) (color : Z) :
  σ !! l = Some (ModeP im) → σ !! lmask = Some (ModeL mask) →
  paste color mask im = inr im' →
  obj_paste l color lmask σ = (inr (), <[l := ModeP im']> σ).
Proof.
  intros Hl Hm Hp. unfold obj_paste, mbind, ST_bind, st_load, st_lift.
  by rewrite Hl, Hm, Hp.
Qed.

Lemma obj_set_info_run (σ : gmap loc frame) (l : loc) (o : frame)
    (key : string) (value : Z) :
  σ !! l = Some o →
  obj_set_info l key value σ = (inr (), <[l := frame_set_info key value o]> σ).
Proof.
  intros Hl. unfold obj_set_info, mbind, ST_bind, st_load. by rewrite Hl.
Qed.

Lemma fresh_insert_lookup (σ : gmap loc frame) (o : frame) (k : loc) (v : frame) :
  σ !! k = Some v → <[fresh (dom σ) := o]> σ !! k = Some v.
Proof.
  intros Hk. rewrite lookup_insert_ne; [done|].
  intros Heq. rewrite <- Heq in Hk. by rewrite (not_elem_of_dom_1 σ _ (is_fresh _)) in Hk.
Qed.

Lemma transparent_indexed_gif_frame_obj_run
    (σ : gmap loc frame) (l : loc) (fr : Image rgba) (res : Image Z) :
  σ !! l = Some (ModeRGBA fr) →
  transparent_indexed_gif_frame q fr = inr res →
  ∃ l' σ',
    transparent_indexed_gif_frame_obj q l σ = (inr l', σ') ∧
    σ !! l' = None ∧
    σ' !! l' = Some (ModeP res) ∧
    (∀ k o, σ !! k = Some o → σ' !! k = Some o).
Proof.
  intros Hl Hres. unfold transparent_indexed_gif_frame in Hres.
  set (pal := q 255%Z (convert_RGB fr)) in *.
  set (mask := Image_eval (getchannel_A fr) alpha_threshold) in *.
  destruct (paste 255 mask pal) as [e|pal'] eqn:Hpaste; [done|].
  simpl in Hres. injection Hres as <-.
  unfold transparent_indexed_gif_frame_obj.
  set (la := fresh (dom σ)). set (σ1 := <[la := ModeL (getchannel_A fr)]> σ).
  rewrite (st_bind_run _ _ σ σ1 la) by by apply obj_getchannel_A_run.
  set (lr := fresh (dom σ1)). set (σ2 := <[lr := ModeRGB (convert_RGB fr)]> σ1).
  rewrite (st_bind_run _ _ σ1 σ2 lr)
    by (apply obj_convert_RGB_run; by apply fresh_insert_lookup).
  set (lp := fresh (dom σ2)). set (σ3 := <[lp := ModeP pal]> σ2).
  rewrite (st_bind_run _ _ σ2 σ3 lp)
    by (apply obj_convert_P_run; apply lookup_insert_eq).
  set (lm := fresh (dom σ3)). set (σ4 := <[lm := ModeL mask]> σ3).
  rewrite (st_bind_run _ _ σ3 σ4 lm).
  2:{ apply obj_Image_eval_run. unfold σ3, σ2.
      do 2 apply fresh_insert_lookup. apply lookup_insert_eq. }
  set (σ5 := <[lp := ModeP pal']> σ4).
  rewrite (st_bind_run _ _ σ4 σ5 ()).
  2:{ apply (obj_paste_run σ4 lp lm pal pal' mask); [| |done].
      - unfold σ4. apply fresh_insert_lookup. apply lookup_insert_eq.
      - apply lookup_insert_eq. }
  set (σ6 := <[lp := frame_set_info "transparency" 255 (ModeP pal')]> σ5).
  rewrite (st_bind_run _ _ σ5 σ6 ())
    by (apply obj_set_info_run; apply lookup_insert_eq).
  assert (∀ k o, σ !! k = Some o → σ4 !! k = Some o) as Hold4.
  { intros k o Hk. unfold σ4, σ3, σ2, σ1. by do 4 apply fresh_insert_lookup. }
  assert (σ !! lp = None) as Hlp.
  { destruct (σ !! lp) as [o|] eqn:Ho; [|done].
    assert (σ2 !! lp = Some o) as Ho2
      by (unfold σ2, σ1; by do 2 apply fresh_insert_lookup).
    pose proof (not_elem_of_dom_1 σ2 _ (is_fresh (dom σ2))) as Hf.
    change (σ2 !! lp = None) in Hf. congruence. }
  exists lp, σ6. split; [done|]. split; [done|]. split; [apply lookup_insert_eq|].
  intros k o Hk. assert (lp ≠ k) by (intros <-; by rewrite Hlp in Hk).
  unfold σ6, σ5. rewrite !lookup_insert_ne by done. by apply Hold4.
Qed.

(** X6: [transparent_indexed_gif_frame] returns a new image object and
    changes no object that existed before, its argument included; the
    new object is the "P" frame the function computes. *)
Theorem quantized_frame_is_new_object
    (σ : gmap loc frame) (l : loc) (rgba_frame : Image rgba) :
  quantize_keeps_size q →
  σ !! l = Some (ModeRGBA rgba_frame) →
  ∃ l' σ' pal_frame,
    transparent_indexed_gif_frame_obj q l σ = (inr l', σ') ∧
    σ !! l' = None ∧
    σ' !! l = Some (ModeRGBA rgba_frame) ∧
    (∀ k o, σ !! k = Some o → σ' !! k = Some o) ∧
    σ' !! l' = Some (ModeP pal_frame) ∧
    transparent_indexed_gif_frame q rgba_frame = inr pal_frame.
Proof.
  intros Hq Hl.
  pose proof (transparent_indexed_gif_frame_returns q rgba_frame Hq) as Hres.
  destruct (transparent_indexed_gif_frame_obj_run σ l rgba_frame _ Hl Hres)
    as (l' & σ' & Hrun & Hnew & Hstored & Hold).
  eexists l', σ', _. split_and!; [done|done|by apply Hold|done|done|done].
Qed.


(** *** The orchestrator, case by case *)

(** What the call does, from what the [with] block returned and what
    [save] makes of the output path. *)
Lemma create_rounded_corners_gif_cases
    (input_gif output_gif : string) (r b : Z) (w : world) :
  create_rounded_corners_gif fill blur q refused same input_gif output_gif r b w =
    match (read_frames fill blur q input_gif r b w).1 with
    | inl e => (inl e, w)
    | inr [] =>
        (inr (), mkWorld (fs w) (stdout w ++ ["No frames found in " +:+ input_gif]))
    | inr (first :: rest) =>
        match refused output_gif with
        | Some e => (inl e, w)
        | None =>
            (inr (),
             mkWorld
               (<[output_gif := saved_animation (kept_frames same (first :: rest))]>
                  (fs w))
               (stdout w ++ ["Saved rounded-corner GIF to: " +:+ output_gif]))
        end
    end.
Proof.
  pose proof (read_frames_world fill blur q input_gif r b w) as Hw.
  destruct (read_frames fill blur q input_gif r b w) as [res w1] eqn:Hread.
  simpl in Hw. subst w1. unfold create_rounded_corners_gif.
  destruct res as [e|[|first rest]]; simpl.
  - by rewrite (io_bind_raise _ _ _ _ _ Hread).
  - by rewrite (io_bind_run _ _ _ _ _ Hread).
  - rewrite (io_bind_run _ _ _ _ _ Hread).
    destruct (refused output_gif) as [e|] eqn:Href.
    + by apply write_frames_refused.
    + by apply write_frames_saved.
Qed.


(** X7: the call changes no file but the one at the output path and
    prints at most one line, whatever the input and however it ends. *)
Theorem only_output_path_changes
    (input_gif output_gif : string) (corner_radius blur_radius : Z) (w : world) :
  let w' := (create_rounded_corners_gif fill blur q refused same input_gif output_gif
               corner_radius blur_radius w).2 in
  (∀ path, path ≠ output_gif → fs w' !! path = fs w !! path) ∧
  (stdout w' = stdout w ∨ ∃ line, stdout w' = stdout w ++ [line]).
Proof.
  intros w'. unfold w'. rewrite create_rounded_corners_gif_cases.
  destruct ((read_frames fill blur q input_gif corner_radius blur_radius w).1)
    as [e|[|first rest]]; simpl.
  - auto.
  - split; [done|]. right. by eexists.
  - destruct (refused output_gif) as [e|]; simpl; [auto|].
    split; [|right; by eexists]. intros path Hne. by rewrite lookup_insert_ne.
Qed.


Lemma transparent_indexed_gif_frame_info (fr : Image rgba) (p : Image Z) :
  transparent_indexed_gif_frame q fr = inr p →
  im_info p !! "transparency" = Some 255%Z.
Proof.
  unfold transparent_indexed_gif_frame. destruct (paste _ _ _) as [e|p']; [done|].
  simpl. intros [= <-]. apply lookup_insert_eq.
Qed.

Lemma process_frame_info (f : frame) (r b : Z) (p : Image Z) :
  process_frame fill blur q f r b = inr p →
  im_info p !! "transparency" = Some 255%Z.
Proof.
  unfold process_frame.
  destruct (mask_rounded_corners _ _ _ _ _) as [e|rounded]; [done|]. simpl.
  apply transparent_indexed_gif_frame_info.
Qed.

(** The loop over a run of frames that decode and transform. *)
Lemma collect_frames_app (fl : list frame) (more : list frame_read) (r b : Z)
    (acc : list (Image Z)) :
  (∀ f, f ∈ fl → ∃ p, process_frame fill blur q f r b = inr p) →
  ∃ outs,
    collect_frames fill blur q ((Decoded <$> fl) ++ more) r b acc =
      collect_frames fill blur q more r b (acc ++ outs) ∧
    Forall2 (λ f p, process_frame fill blur q f r b = inr p) fl outs.
Proof.
  revert acc. induction fl as [|f fl IH]; intros acc Hall.
  - exists []. by rewrite app_nil_r.
  - destruct (Hall f) as [p Hp]; [by left|].
    destruct (IH (acc ++ [p])) as (outs & Hc & Hf2).
    { intros f' Hf'. apply Hall. by right. }
    exists (p :: outs). rewrite fmap_cons. simpl app.
    rewrite (collect_frames_step _ _ _ _ _ _ _ _ _ Hp), Hc.
    split; [by rewrite <- app_assoc|by constructor].
Qed.

(** The frames the writer keeps are frames it was given, in their
    order. *)
Lemma merge_repeats_sublist (previous : Image Z) (frames : list (Image Z)) :
  merge_repeats same previous frames `sublist_of` frames.
Proof.
  revert previous. induction frames as [|frame rest IH]; intros previous; simpl.
  - constructor.
  - destruct (same previous frame); [by apply sublist_cons|by apply sublist_skip].
Qed.

Lemma kept_frames_sublist (frames : list (Image Z)) :
  kept_frames same frames `sublist_of` frames.
Proof.
  destruct frames as [|first rest]; simpl; [constructor|].
  apply sublist_skip, merge_repeats_sublist.
Qed.

(** Where no frame is the same picture as the one before it, the writer
    keeps them all. *)
Lemma merge_repeats_all (previous : Image Z) (frames : list (Image Z)) :
  (∀ i p p', (previous :: frames) !! i = Some p →
     (previous :: frames) !! S i = Some p' → same p p' = false) →
  merge_repeats same previous frames = frames.
Proof.
  revert previous. induction frames as [|frame rest IH]; intros previous Hd; simpl.
  - done.
  - rewrite (Hd 0 previous frame) by done. f_equal. apply IH.
    intros i p p' Hp Hp'. by apply (Hd (S i)).
Qed.

Lemma kept_frames_all (frames : list (Image Z)) :
  (∀ i p p', frames !! i = Some p → frames !! S i = Some p' → same p p' = false) →
  kept_frames same frames = frames.
Proof.
  destruct frames as [|first rest]; simpl; [done|].
  intros Hd. f_equal. by apply merge_repeats_all.
Qed.

(** X9: an input whose frames all decode, at least one of them, with a
    corner radius the drawing call takes and an output path [save]
    takes: every input frame is processed, in order, and the output file
    holds the processed frames the writer keeps.  These start with the
    first processed frame, are at least one and at most as many as the
    input frames, keep their order, and are every processed frame when
    no frame is the same picture as the one before it; each is the
    processed frame of an input frame, of its size, in mode "P" and with
    255 recorded as its transparent index.  The file loops forever with
    disposal 2. *)
Theorem output_frames_match_input
    (input_gif output_gif : string) (corner_radius blur_radius : Z)
    (w : world) (a : animation) (fl : list frame) :
  let w' := (create_rounded_corners_gif fill blur q refused same input_gif output_gif
               corner_radius blur_radius w).2 in
  (0 ≤ corner_radius)%Z → blur_keeps_size blur → quantize_keeps_size q →
  fs w !! input_gif = Some (Animated a) →
  an_frames a = Decoded <$> fl →
  fl ≠ [] →
  refused output_gif = None →
  ∃ outs,
    Forall2 (λ f p, process_frame fill blur q f corner_radius blur_radius = inr p)
      fl outs ∧
    fs w' !! output_gif =
      Some (Animated (mkAnimation
                        ((λ p, Decoded (ModeP p)) <$> kept_frames same outs)
                        (Some 0%Z) (Some 2%Z) false)) ∧
    head (kept_frames same outs) = head outs ∧
    kept_frames same outs `sublist_of` outs ∧
    1 ≤ length (kept_frames same outs) ≤ length fl ∧
    ((∀ i p p', outs !! i = Some p → outs !! S i = Some p' → same p p' = false) →
     kept_frames same outs = outs) ∧
    ∀ p, p ∈ kept_frames same outs →
      ∃ i f, fl !! i = Some f ∧ outs !! i = Some p ∧
             process_frame fill blur q f corner_radius blur_radius = inr p ∧
             im_size p = frame_size f ∧
             im_info p !! "transparency" = Some 255%Z.
Proof.
  intros w' Hr Hb Hq Hfile Hframes Hne Href.
  destruct (collect_frames_decoded fill blur q fl corner_radius blur_radius []
              Hr Hb Hq) as (outs & Hc & Hall).
  simpl in Hc.
  assert ((read_frames fill blur q input_gif corner_radius blur_radius w).1
          = inr outs) as Hread.
  { rewrite (read_frames_opened fill blur q _ _ _ _ (Decoded <$> fl)).
    - done.
    - rewrite <- Hframes. apply Image_open_animated; [done|].
      rewrite Hframes. by destruct fl. }
  pose proof (Forall2_length _ _ _ Hall) as Hlen.
  pose proof (kept_frames_sublist outs) as Hsub.
  exists outs. split; [done|]. split.
  { unfold w'. rewrite create_rounded_corners_gif_cases, Hread.
    destruct outs as [|first rest]; [by destruct fl|].
    rewrite Href. simpl. apply lookup_insert_eq. }
  split; [by destruct outs|]. split; [done|]. split.
  { split.
    - destruct outs as [|first rest]; [by destruct fl|]. simpl. lia.
    - rewrite Hlen. by apply sublist_length. }
  split; [apply kept_frames_all|].
  intros p Hp. apply (elem_of_sublist _ _ _ Hp) in Hsub as Hin.
  clear Hp. rename Hin into Hp.
  apply list_elem_of_lookup in Hp as [i Hi].
  destruct (Forall2_lookup_r _ _ _ _ _ Hall Hi) as (f & Hf & Hproc).
  exists i, f. split_and!; [done|done|done| |by eapply process_frame_info].
  destruct (process_frame_returns fill blur q f corner_radius blur_radius Hr Hb Hq)
    as (p' & Hp' & Hsize).
  rewrite Hproc in Hp'. by injection Hp' as ->.
Qed.

(** X10: when the frames before the first one that fails to decode are
    all processed, the exception that leaves the call is that frame's;
    the frames after it are not looked at, and nothing is written or
    printed. *)
Theorem first_failing_frame_raises
    (input_gif output_gif : string) (corner_radius blur_radius : Z)
    (w : world) (fl : list frame) (e : exn) (rest : list frame_read) :
  (∀ f, f ∈ fl →
     ∃ p, process_frame fill blur q f corner_radius blur_radius = inr p) →
  Image_open input_gif w = (inr ((Decoded <$> fl) ++ Failing e :: rest), w) →
  create_rounded_corners_gif fill blur q refused same input_gif output_gif
    corner_radius blur_radius w = (inl e, w).
Proof.
  intros Hall Hopen.
  destruct (collect_frames_app fl (Failing e :: rest) corner_radius blur_radius []
              Hall) as (outs & Hc & _).
  rewrite create_rounded_corners_gif_cases.
  by rewrite (read_frames_opened fill blur q _ _ _ _ _ Hopen), Hc.
Qed.

(** *** A negative corner radius *)

(** X12: with a negative corner radius the drawing call raises
    [ValueError] at the first frame, for every blur radius: neither
    stage returns a frame, and the call on an input whose first frame
    decodes raises with nothing written and nothing printed. *)
Theorem negative_radius_raises
    (input_gif output_gif : string) (corner_radius blur_radius : Z)
    (w : world) (f : frame) (rest : list frame_read) :
  let e := ValueError "x1 must be greater than or equal to x0" in
  (corner_radius < 0)%Z →
  Image_open input_gif w = (inr (Decoded f :: rest), w) →
  mask_rounded_corners fill blur f corner_radius blur_radius = inl e ∧
  process_frame fill blur q f corner_radius blur_radius = inl e ∧
  create_rounded_corners_gif fill blur q refused same input_gif output_gif
    corner_radius blur_radius w = (inl e, w).
Proof.
  intros e Hr Hopen.
  pose proof (mask_rounded_corners_raises fill blur f corner_radius blur_radius Hr)
    as Hmask.
  assert (process_frame fill blur q f corner_radius blur_radius = inl e) as Hproc.
  { rewrite process_frame_composes, Hmask. done. }
  split; [done|]. split; [done|].
  rewrite create_rounded_corners_gif_cases.
  rewrite (read_frames_opened fill blur q _ _ _ _ _ Hopen). simpl.
  by rewrite Hproc.
Qed.

(** *** The script run directly *)

Lemma process_frame_returns_without_blur (f : frame) (r b : Z) :
  (0 ≤ r)%Z → quantize_keeps_size q → (b ≤ 0)%Z →
  ∃ p, process_frame fill blur q f r b = inr p.
Proof.
  intros Hr Hq Hb. rewrite process_frame_composes.
  rewrite mask_rounded_corners_without_blur by done.
  rewrite mask_rounded_corners_returns; [|done|apply painted_mask_sharp_size].
  simpl. rewrite transparent_indexed_gif_frame_returns by done. by eexists.
Qed.

(** X11: run directly, the script never changes the file it reads,
    "Templates_Accessing_Templates.gif"; when that file is missing it
    raises with nothing written; when its frames all decode, at least
    one of them, every frame is processed with radius 50 and no blur,
    which needs nothing of the blur filter, and then either [save]
    takes "Templates_Accessing_Templates_Rounded.gif", which holds the
    processed frames the writer keeps, or its exception leaves the
    script with nothing written. *)
Theorem main_writes_rounded_copy (w : world) :
  let input_path := "Templates_Accessing_Templates.gif" in
  let output_path := "Templates_Accessing_Templates_Rounded.gif" in
  let run := main fill blur q refused same w in
  fs run.2 !! input_path = fs w !! input_path ∧
  (fs w !! input_path = None → run = (inl (FileNotFoundError input_path), w)) ∧
  (quantize_keeps_size q →
   ∀ a fl, fs w !! input_path = Some (Animated a) →
     an_frames a = Decoded <$> fl → fl ≠ [] →
     ∃ outs,
       Forall2 (λ f p, process_frame fill blur q f 50 0 = inr p) fl outs ∧
       (refused output_path = None →
        run = (inr (),
               mkWorld
                 (<[output_path := saved_animation (kept_frames same outs)]> (fs w))
                 (stdout w ++ ["Saved rounded-corner GIF to: " +:+ output_path]))) ∧
       (∀ e, refused output_path = Some e → run = (inl e, w))).
Proof.
  intros input_path output_path run. unfold run, main.
  fold input_path output_path. split_and!.
  - rewrite create_rounded_corners_gif_cases.
    destruct ((read_frames fill blur q input_path 50 0 w).1) as [e|[|first rest]];
      simpl; [done..|].
    destruct (refused output_path); [done|]. simpl. by rewrite lookup_insert_ne.
  - intros Hnone. rewrite create_rounded_corners_gif_cases.
    unfold read_frames, mbind, IO_bind, Image_open, io_lift. by rewrite Hnone.
  - intros Hq a fl Hfile Hframes Hne.
    destruct (collect_frames_app fl [] 50 0 []) as (outs & Hc & Hall).
    { intros f _. apply process_frame_returns_without_blur; [lia|done|lia]. }
    rewrite app_nil_r in Hc. simpl in Hc.
    exists outs. split; [done|].
    rewrite create_rounded_corners_gif_cases.
    rewrite (read_frames_opened fill blur q _ _ _ _ (Decoded <$> fl)).
    2:{ rewrite <- Hframes. apply Image_open_animated; [done|].
        rewrite Hframes. by destruct fl. }
    simpl. rewrite Hc.
    pose proof (Forall2_length _ _ _ Hall).
    destruct outs as [|first rest]; [by destruct fl|].
    split; [by intros ->|]. by intros e ->.
Qed.

End Further.

(** ** The further properties at sample inputs *)

Lemma nonpositive_blur_is_ignored_witness :
  (0 ≤ 3)%Z ∧ (-3 ≤ 0)%Z ∧
  ∃ result,
    ref_mask (opaque_frame 8 8) 3%Z (-3)%Z = inr result ∧
    mask_rounded_corners ideal_rounded_rectangle (λ _ m, m) (opaque_frame 8 8)
      3%Z (-3)%Z = inr result ∧
    ref_mask (opaque_frame 8 8) 3%Z 0%Z = inr result ∧
    (∀ px, px ∈ im_data result → alpha_of px = 0%Z ∨ alpha_of px = 255%Z).
Proof.
  assert (0 ≤ 3)%Z as Hr by lia.
  assert (-3 ≤ 0)%Z as Hb by lia. split_and!; [done..|].
  exact (nonpositive_blur_is_ignored ideal_rounded_rectangle mean_filter
           (λ _ m, m) (opaque_frame 8 8) 3%Z (-3)%Z Hr Hb).
Defined.

Lemma input_alpha_is_discarded_witness :
  color_of <$> im_data threshold_pixels = color_of <$> im_data faded_pixels ∧
  ref_mask (ModeRGBA threshold_pixels) 1%Z 0%Z =
    ref_mask (ModeRGBA faded_pixels) 1%Z 0%Z ∧
  process_frame ideal_rounded_rectangle mean_filter first_colors
    (ModeRGBA threshold_pixels) 1%Z 0%Z =
  process_frame ideal_rounded_rectangle mean_filter first_colors
    (ModeRGBA faded_pixels) 1%Z 0%Z.
Proof.
  assert (color_of <$> im_data threshold_pixels = color_of <$> im_data faded_pixels)
    as Hcol by reflexivity.
  split; [done|].
  exact (input_alpha_is_discarded ideal_rounded_rectangle mean_filter first_colors
           threshold_pixels faded_pixels 1%Z 0%Z eq_refl eq_refl eq_refl Hcol).
Defined.

Lemma transparent_exactly_where_unpainted_witness :
  (0 ≤ 3)%Z ∧ frame_wf (opaque_frame 8 8) ∧ (0 ≤ 0)%Z ∧
  ∃ out,
    ref_mask (opaque_frame 8 8) 3%Z 0%Z ≫= ref_quantized = inr out ∧
    ∀ x y, x < 8 → y < 8 →
      ∃ v, getpixel out x y = Some v ∧
           (v = 255%Z ↔
            ideal_rounded_rectangle (0, 0, 8, 8)%Z 3 (Z.of_nat x) (Z.of_nat y) = false).
Proof.
  assert (0 ≤ 3)%Z as Hr by lia.
  assert (frame_wf (opaque_frame 8 8)) as Hwf by reflexivity.
  assert (0 ≤ 0)%Z as Hb by lia.
  split_and!; [done..|].
  exact (transparent_exactly_where_unpainted ideal_rounded_rectangle mean_filter
           first_colors (opaque_frame 8 8) 3%Z 0%Z Hr Hwf
           first_colors_keeps_size first_colors_keeps_length first_colors_in_range Hb).
Defined.

Lemma inner_pixels_are_visible_witness :
  frame_wf (opaque_frame 8 8) ∧ (0 ≤ 3)%Z ∧ (2 * 3 ≤ Z.of_nat (8 `min` 8))%Z ∧
  ∃ out,
    ref_mask (opaque_frame 8 8) 3%Z 0%Z ≫= ref_quantized = inr out ∧
    (∀ x y, x < 8 → y < 8 →
       (3 ≤ Z.of_nat x ≤ 8 - 3)%Z → (3 ≤ Z.of_nat y ≤ 8 - 3)%Z →
       ∃ v, getpixel out x y = Some v ∧ v ≠ 255%Z) ∧
    (3%Z = 0%Z →
     ∀ x y, x < 8 → y < 8 → ∃ v, getpixel out x y = Some v ∧ v ≠ 255%Z).
Proof.
  assert (frame_wf (opaque_frame 8 8)) as Hwf by reflexivity.
  assert (0 ≤ 0)%Z as Hb by lia.
  assert (0 ≤ 3)%Z as Hr by lia.
  assert (2 * 3 ≤ Z.of_nat (8 `min` 8))%Z as Hfit by (simpl; lia).
  split_and!; [done..|].
  exact (inner_pixels_are_visible ideal_rounded_rectangle mean_filter first_colors
           (opaque_frame 8 8) 3%Z 0%Z ideal_fills_inner Hwf
           first_colors_keeps_size first_colors_keeps_length first_colors_in_range
           Hb Hr Hfit).
Defined.

Lemma stages_keep_pixel_count_witness :
  (0 ≤ 3)%Z ∧ frame_wf (opaque_frame 8 8) ∧
  (∃ rounded, ref_mask (opaque_frame 8 8) 3%Z 2%Z = inr rounded ∧ wf rounded) ∧
  (∀ rgba_frame, wf rgba_frame →
     ∃ pal_frame,
       transparent_indexed_gif_frame first_colors rgba_frame = inr pal_frame ∧
       wf pal_frame) ∧
  (∃ pal_frame,
     process_frame ideal_rounded_rectangle mean_filter first_colors
       (opaque_frame 8 8) 3%Z 2%Z = inr pal_frame ∧
     wf pal_frame).
Proof.
  assert (0 ≤ 3)%Z as Hr by lia.
  assert (frame_wf (opaque_frame 8 8)) as Hwf by reflexivity.
  split; [done|]. split; [done|].
  exact (stages_keep_pixel_count ideal_rounded_rectangle mean_filter first_colors
           (opaque_frame 8 8) 3%Z 2%Z Hr
           mean_filter_keeps_size mean_filter_keeps_wf
           first_colors_keeps_size first_colors_keeps_length Hwf).
Defined.

Lemma quantized_frame_is_new_object_witness :
  let σ : gmap loc frame := {[ 0 := ModeRGBA threshold_pixels ]} in
  σ !! 0 = Some (ModeRGBA threshold_pixels) ∧
  ∃ l' σ' pal_frame,
    transparent_indexed_gif_frame_obj first_colors 0 σ = (inr l', σ') ∧
    σ !! l' = None ∧
    σ' !! 0 = Some (ModeRGBA threshold_pixels) ∧
    (∀ k o, σ !! k = Some o → σ' !! k = Some o) ∧
    σ' !! l' = Some (ModeP pal_frame) ∧
    transparent_indexed_gif_frame first_colors threshold_pixels = inr pal_frame.
Proof.
  intros σ.
  assert (σ !! 0 = Some (ModeRGBA threshold_pixels)) as Hl by reflexivity.
  split; [done|].
  exact (quantized_frame_is_new_object first_colors σ 0 threshold_pixels
           first_colors_keeps_size Hl).
Defined.


Lemma output_frames_match_input_witness :
  let process := process_frame ideal_rounded_rectangle mean_filter first_colors in
  let w' := (create_rounded_corners_gif ideal_rounded_rectangle mean_filter
               first_colors gif_extension_only same_raster
               "in.gif" "out.gif" 20%Z 0%Z three_frames).2 in
  (0 ≤ 20)%Z ∧
  fs three_frames !! "in.gif" = Some (animation_of (Decoded <$> three_tints)) ∧
  three_tints ≠ [] ∧
  gif_extension_only "out.gif" = None ∧
  ∃ outs,
    Forall2 (λ f p, process f 20%Z 0%Z = inr p) three_tints outs ∧
    fs w' !! "out.gif" =
      Some (Animated (mkAnimation
                        ((λ p, Decoded (ModeP p)) <$> kept_frames same_raster outs)
                        (Some 0%Z) (Some 2%Z) false)) ∧
    head (kept_frames same_raster outs) = head outs ∧
    kept_frames same_raster outs `sublist_of` outs ∧
    1 ≤ length (kept_frames same_raster outs) ≤ length three_tints ∧
    ((∀ i p p', outs !! i = Some p → outs !! S i = Some p' →
        same_raster p p' = false) →
     kept_frames same_raster outs = outs) ∧
    ∀ p, p ∈ kept_frames same_raster outs →
      ∃ i f, three_tints !! i = Some f ∧ outs !! i = Some p ∧
             process f 20%Z 0%Z = inr p ∧
             im_size p = frame_size f ∧
             im_info p !! "transparency" = Some 255%Z.
Proof.
  intros process w'.
  assert (0 ≤ 20)%Z as Hr by lia.
  assert (fs three_frames !! "in.gif" = Some (animation_of (Decoded <$> three_tints)))
    as Hfile by reflexivity.
  assert (three_tints ≠ []) as Hne by discriminate.
  assert (gif_extension_only "out.gif" = None) as Href by reflexivity.
  split_and!; [done..|].
  exact (output_frames_match_input ideal_rounded_rectangle mean_filter first_colors
           gif_extension_only same_raster
           "in.gif" "out.gif" 20%Z 0%Z three_frames _ three_tints Hr
           mean_filter_keeps_size first_colors_keeps_size Hfile eq_refl Hne Href).
Defined.

Lemma first_failing_frame_raises_witness :
  (∀ f, f ∈ [opaque_frame 4 4] →
     ∃ p, process_frame ideal_rounded_rectangle mean_filter first_colors
            f 1%Z 0%Z = inr p) ∧
  Image_open "in.gif" truncated_gif
  = (inr ((Decoded <$> [opaque_frame 4 4])
          ++ Failing (OSError "image file is truncated") :: []), truncated_gif) ∧
  create_rounded_corners_gif ideal_rounded_rectangle mean_filter first_colors
    gif_extension_only same_raster "in.gif" "out.gif" 1%Z 0%Z truncated_gif
  = (inl (OSError "image file is truncated"), truncated_gif).
Proof.
  assert (∀ f, f ∈ [opaque_frame 4 4] →
            ∃ p, process_frame ideal_rounded_rectangle mean_filter first_colors
                   f 1%Z 0%Z = inr p) as Hall.
  { intros f Hf. apply list_elem_of_singleton in Hf as ->.
    eexists. vm_compute. reflexivity. }
  assert (Image_open "in.gif" truncated_gif
          = (inr ((Decoded <$> [opaque_frame 4 4])
                  ++ Failing (OSError "image file is truncated") :: []),
             truncated_gif)) as Hopen by reflexivity.
  split; [done|]. split; [done|].
  exact (first_failing_frame_raises ideal_rounded_rectangle mean_filter first_colors
           gif_extension_only same_raster
           "in.gif" "out.gif" 1%Z 0%Z truncated_gif [opaque_frame 4 4] _ []
           Hall Hopen).
Defined.

Lemma negative_radius_raises_witness :
  let e := ValueError "x1 must be greater than or equal to x0" in
  (-1 < 0)%Z ∧
  Image_open "in.gif" still_frames
  = (inr (Decoded (opaque_frame 8 8) :: (Decoded <$> replicate 2 (opaque_frame 8 8))),
     still_frames) ∧
  ref_mask (opaque_frame 8 8) (-1)%Z 2%Z = inl e ∧
  process_frame ideal_rounded_rectangle mean_filter first_colors
    (opaque_frame 8 8) (-1)%Z 2%Z = inl e ∧
  create_rounded_corners_gif ideal_rounded_rectangle mean_filter first_colors
    gif_extension_only same_raster "in.gif" "out.gif" (-1)%Z 2%Z still_frames
  = (inl e, still_frames).
Proof.
  intros e.
  assert (-1 < 0)%Z as Hr by lia.
  assert (Image_open "in.gif" still_frames
          = (inr (Decoded (opaque_frame 8 8)
                  :: (Decoded <$> replicate 2 (opaque_frame 8 8))), still_frames))
    as Hopen by reflexivity.
  split; [done|]. split; [done|].
  exact (negative_radius_raises ideal_rounded_rectangle mean_filter first_colors
           gif_extension_only same_raster
           "in.gif" "out.gif" (-1)%Z 2%Z still_frames (opaque_frame 8 8) _ Hr Hopen).
Defined.
